(** * A blog front end: post list, front matter, search box and theme

    Shallow embedding of the three scripts of the site:
    - [js/post-loader.js]: front-matter parsing of a post document;
    - [js/app.js]: loading the post index, tag extraction, filtering, on an
      index of post records (module [App]) and the load on any index
      (module [Index]);
    - [js/search.js]: the debounced search box, and the theme switch that
      follows it in the same file.

    JavaScript strings are sequences of 16-bit code units; they are modelled
    as [list N], a code unit being its number.  Objects used as maps are
    finite maps, exceptions are an explicit outcome. *)

From Stdlib Require Import NArith ZArith Lia.
From stdpp Require Import base list sorting lexico gmap strings.

Set Default Proof Using "Type".

(** ** JavaScript strings and the string built-ins the scripts call *)

Module Js.

Abbreviation jsstring := (list N).

(** A literal of the scripts: each character is its code unit. *)
Fixpoint str (s : string) : jsstring :=
  match s with
  | EmptyString => []
  | String a s' => Ascii.N_of_ascii a :: str s'
  end.

Definition LF : N := 10.
Definition DQUOTE : N := 34.
Definition SQUOTE : N := 39.
Definition COMMA : N := 44.
Definition COLON : N := 58.
Definition LBRACKET : N := 91.
Definition RBRACKET : N := 93.

(** Exceptions the scripts can meet. *)
Inductive exn := SyntaxError | TypeError | URIError | Error.

Inductive outcome (A : Type) :=
| Normal (a : A)
| Throws (e : exn).
Arguments Normal {A} a.
Arguments Throws {A} e.

Global Instance outcome_ret : MRet outcome := λ A a, Normal a.
Global Instance outcome_bind : MBind outcome := λ A B k m,
  match m with
  | Normal a => k a
  | Throws e => Throws e
  end.

(** [try { body } catch { handler }] *)
Definition try_catch {A} (body : outcome A) (handler : exn → outcome A) : outcome A :=
  match body with
  | Normal a => Normal a
  | Throws e => handler e
  end.

(** [s.startsWith(p)] *)
Fixpoint startsWith (s p : jsstring) {struct p} : bool :=
  match p, s with
  | [], _ => true
  | c :: p', d :: s' => (c =? d)%N && startsWith s' p'
  | _ :: _, [] => false
  end.

(** [s.endsWith(p)] *)
Definition endsWith (s p : jsstring) : bool :=
  startsWith (reverse s) (reverse p).

(** [s.includes(q)]: [q] occurs in [s] as a substring. *)
Fixpoint includes (s q : jsstring) : bool :=
  startsWith s q ||
  match s with
  | [] => false
  | _ :: s' => includes s' q
  end.

(** [s.indexOf(c)] for a one-character pattern; [None] stands for -1. *)
Fixpoint indexOf (s : jsstring) (c : N) : option nat :=
  match s with
  | [] => None
  | d :: s' => if (d =? c)%N then Some 0 else S <$> indexOf s' c
  end.

(** [s.substring(i, j)] and [s.substring(i)] for indices within range. *)
Definition substring (s : jsstring) (i j : nat) : jsstring := take (j - i) (drop i s).
Definition substring_from (s : jsstring) (i : nat) : jsstring := drop i s.

(** [s.slice(from, to)], negative indices counting from the end. *)
Definition slice (s : jsstring) (from to : Z) : jsstring :=
  let len := Z.of_nat (length s) in
  let k := if (from <? 0)%Z then Z.max (len + from) 0 else Z.min from len in
  let e := if (to <? 0)%Z then Z.max (len + to) 0 else Z.min to len in
  take (Z.to_nat (e - k)) (drop (Z.to_nat k) s).

(** White space and line terminators, the code units [trim] removes. *)
Definition is_space (c : N) : bool :=
  ((9 <=? c) && (c <=? 13) || (c =? 32) || (c =? 160) || (c =? 5760)
   || (8192 <=? c) && (c <=? 8202) || (c =? 8232) || (c =? 8233)
   || (c =? 8239) || (c =? 8287) || (c =? 12288) || (c =? 65279))%N.

Fixpoint trimStart (s : jsstring) : jsstring :=
  match s with
  | c :: s' => if is_space c then trimStart s' else s
  | [] => []
  end.

Definition trimEnd (s : jsstring) : jsstring := reverse (trimStart (reverse s)).

(** [s.trim()] *)
Definition trim (s : jsstring) : jsstring := trimEnd (trimStart s).

(** [s.split(c)] for a one-character separator: never the empty list. *)
Fixpoint split (s : jsstring) (c : N) : list jsstring :=
  match s with
  | [] => [[]]
  | d :: s' =>
      if (d =? c)%N then [] :: split s' c
      else match split s' c with
           | piece :: pieces => (d :: piece) :: pieces
           | [] => [[d]]
           end
  end.

(** The first occurrence of [sep] in [s]: what stands before it and after it. *)
Fixpoint cut (s sep : jsstring) : option (jsstring * jsstring) :=
  if startsWith s sep then Some ([], drop (length sep) s)
  else match s with
       | [] => None
       | c :: s' => (λ '(before, after), (c :: before, after)) <$> cut s' sep
       end.

(** *** [encodeURIComponent]

    The text is read code point by code point.  The letters, the digits and
    the marks [- _ . ! ~ * ' ( )] are kept; any other code point is written
    as the octets of its UTF-8 form, each as [%] and two hexadecimal digits.
    A surrogate that is not half of a pair is no code point: the call throws
    a [URIError]. *)

(** The first of a surrogate pair, D800 to DBFF, and the second, DC00 to DFFF. *)
Definition is_lead (c : N) : bool := ((55296 <=? c) && (c <=? 56319))%N.
Definition is_trail (c : N) : bool := ((56320 <=? c) && (c <=? 57343))%N.

Definition uriUnescaped (c : N) : bool :=
  ((65 <=? c) && (c <=? 90) || (97 <=? c) && (c <=? 122) || (48 <=? c) && (c <=? 57)
   || (c =? 45) || (c =? 95) || (c =? 46) || (c =? 33) || (c =? 126)
   || (c =? 42) || (c =? 39) || (c =? 40) || (c =? 41))%N.

(** The code point of a surrogate pair. *)
Definition code_point (lead trail : N) : N :=
  ((lead - 55296) * 1024 + (trail - 56320) + 65536)%N.

(** The octets of a code point in UTF-8. *)
Definition utf8 (cp : N) : list N :=
  if (cp <? 128)%N then [cp]
  else if (cp <? 2048)%N then [192 + cp / 64; 128 + cp mod 64]%N
  else if (cp <? 65536)%N
       then [224 + cp / 4096; 128 + (cp / 64) mod 64; 128 + cp mod 64]%N
       else [240 + cp / 262144; 128 + (cp / 4096) mod 64;
             128 + (cp / 64) mod 64; 128 + cp mod 64]%N.

(** A hexadecimal digit, in upper case, and an octet written as [%XX]. *)
Definition hex_digit (n : N) : N := if (n <? 10)%N then (48 + n)%N else (55 + n)%N.
Definition percent (octet : N) : jsstring :=
  [37%N; hex_digit (octet / 16); hex_digit (octet mod 16)].
Definition escape (cp : N) : jsstring := mjoin (percent <$> utf8 cp).

(** The loop of the built-in: [R] is the text written so far. *)
Fixpoint Encode (R s : jsstring) : outcome jsstring :=
  match s with
  | [] => Normal R
  | c :: s' =>
      if uriUnescaped c then Encode (R ++ [c]) s'
      else if is_trail c then Throws URIError
      else if is_lead c then
        match s' with
        | d :: s'' =>
            if is_trail d then Encode (R ++ escape (code_point c d)) s''
            else Throws URIError
        | [] => Throws URIError
        end
      else Encode (R ++ escape c) s'
  end.

Definition encodeURIComponent (s : jsstring) : outcome jsstring := Encode [] s.

(** [s.isWellFormed()]: no surrogate stands outside a pair. *)
Fixpoint isWellFormed (s : jsstring) : bool :=
  match s with
  | [] => true
  | c :: s' =>
      if is_trail c then false
      else if is_lead c then
        match s' with
        | d :: s'' => is_trail d && isWellFormed s''
        | [] => false
        end
      else isWellFormed s'
  end.

End Js.

(** ** [JSON.parse]

    The built-in is modelled on the JSON grammar: a lexer that reads the text
    one code unit at a time, and a pushdown parser over its tokens.  A number
    is kept as the literal that denotes it. *)

Module Json.
Import Js.

#[local] Set Warnings "-register-all".

Inductive json :=
| JNull
| JBool (b : bool)
| JNum (literal : jsstring)
| JStr (s : jsstring)
| JArr (items : list json)
| JObj (members : list (jsstring * json)).

Inductive token :=
| TLBracket | TRBracket | TLBrace | TRBrace | TComma | TColon
| TString (s : jsstring)
| TNumber (literal : jsstring)
| TTrue | TFalse | TNull.

(** Where the lexer stands inside a number literal. *)
Inductive num_phase :=
| NMinus | NZero | NInt | NDot | NFrac | NE | NESign | NExp.

Inductive lex_state :=
| LStart
| LStr (acc : jsstring)
| LEsc (acc : jsstring)
| LUni (acc : jsstring) (read : nat) (value : N)
| LNum (ph : num_phase) (acc : jsstring)
| LWord (tok : token) (rest : jsstring).

Definition is_json_space (c : N) : bool :=
  ((c =? 9) || (c =? 10) || (c =? 13) || (c =? 32))%N.

Definition is_digit (c : N) : bool := ((48 <=? c) && (c <=? 57))%N.

Definition hex_value (c : N) : option N :=
  if is_digit c then Some (c - 48)%N
  else if ((97 <=? c) && (c <=? 102))%N then Some (c - 87)%N
  else if ((65 <=? c) && (c <=? 70))%N then Some (c - 55)%N
  else None.

(** The tokens are accumulated in reverse. *)
Definition lex_start (toks : list token) (c : N) : option (lex_state * list token) :=
  if is_json_space c then Some (LStart, toks)
  else if (c =? 91)%N then Some (LStart, TLBracket :: toks)
  else if (c =? 93)%N then Some (LStart, TRBracket :: toks)
  else if (c =? 123)%N then Some (LStart, TLBrace :: toks)
  else if (c =? 125)%N then Some (LStart, TRBrace :: toks)
  else if (c =? 44)%N then Some (LStart, TComma :: toks)
  else if (c =? 58)%N then Some (LStart, TColon :: toks)
  else if (c =? 34)%N then Some (LStr [], toks)
  else if (c =? 45)%N then Some (LNum NMinus [c], toks)
  else if (c =? 48)%N then Some (LNum NZero [c], toks)
  else if is_digit c then Some (LNum NInt [c], toks)
  else if (c =? 116)%N then Some (LWord TTrue (str "rue"), toks)
  else if (c =? 102)%N then Some (LWord TFalse (str "alse"), toks)
  else if (c =? 110)%N then Some (LWord TNull (str "ull"), toks)
  else None.

Definition is_exp_mark (c : N) : bool := ((c =? 101) || (c =? 69))%N.

Definition lex_number (ph : num_phase) (acc : jsstring) (toks : list token) (c : N)
  : option (lex_state * list token) :=
  let continue ph' := Some (LNum ph' (c :: acc), toks) in
  let finish := lex_start (TNumber (reverse acc) :: toks) c in
  match ph with
  | NMinus => if (c =? 48)%N then continue NZero
              else if is_digit c then continue NInt else None
  | NZero => if (c =? 46)%N then continue NDot
             else if is_exp_mark c then continue NE else finish
  | NInt => if is_digit c then continue NInt
            else if (c =? 46)%N then continue NDot
            else if is_exp_mark c then continue NE else finish
  | NDot => if is_digit c then continue NFrac else None
  | NFrac => if is_digit c then continue NFrac
             else if is_exp_mark c then continue NE else finish
  | NE => if ((c =? 43) || (c =? 45))%N then continue NESign
          else if is_digit c then continue NExp else None
  | NESign => if is_digit c then continue NExp else None
  | NExp => if is_digit c then continue NExp else finish
  end.

Definition lex_escape (acc : jsstring) (toks : list token) (c : N)
  : option (lex_state * list token) :=
  if ((c =? 34) || (c =? 92) || (c =? 47))%N then Some (LStr (c :: acc), toks)
  else if (c =? 98)%N then Some (LStr (8%N :: acc), toks)
  else if (c =? 102)%N then Some (LStr (12%N :: acc), toks)
  else if (c =? 110)%N then Some (LStr (10%N :: acc), toks)
  else if (c =? 114)%N then Some (LStr (13%N :: acc), toks)
  else if (c =? 116)%N then Some (LStr (9%N :: acc), toks)
  else if (c =? 117)%N then Some (LUni acc 0 0%N, toks)
  else None.

Definition lex_step (st : lex_state) (toks : list token) (c : N)
  : option (lex_state * list token) :=
  match st with
  | LStart => lex_start toks c
  | LStr acc =>
      if (c =? 34)%N then Some (LStart, TString (reverse acc) :: toks)
      else if (c =? 92)%N then Some (LEsc acc, toks)
      else if (c <? 32)%N then None
      else Some (LStr (c :: acc), toks)
  | LEsc acc => lex_escape acc toks c
  | LUni acc read value =>
      match hex_value c with
      | Some d =>
          let value' := (16 * value + d)%N in
          if decide (read = 3) then Some (LStr (value' :: acc), toks)
          else Some (LUni acc (S read) value', toks)
      | None => None
      end
  | LNum ph acc => lex_number ph acc toks c
  | LWord tok rest =>
      match rest with
      | r :: rest' =>
          if (c =? r)%N
          then match rest' with
               | [] => Some (LStart, tok :: toks)
               | _ => Some (LWord tok rest', toks)
               end
          else None
      | [] => None
      end
  end.

Fixpoint lex_run (st : lex_state) (toks : list token) (text : jsstring)
  : option (lex_state * list token) :=
  match text with
  | [] => Some (st, toks)
  | c :: text' =>
      match lex_step st toks c with
      | Some (st', toks') => lex_run st' toks' text'
      | None => None
      end
  end.

(** At the end of the text a number may be complete; a string, an escape
    or a word may not be open. *)
Definition lex_finish (st : lex_state) (toks : list token) : option (list token) :=
  match st with
  | LStart => Some (reverse toks)
  | LNum (NZero | NInt | NFrac | NExp) acc => Some (reverse (TNumber (reverse acc) :: toks))
  | _ => None
  end.

Definition lex (text : jsstring) : option (list token) :=
  match lex_run LStart [] text with
  | Some (st, toks) => lex_finish st toks
  | None => None
  end.

(** A member written twice keeps its first place and takes the last value. *)
Fixpoint obj_set (k : jsstring) (v : json) (members : list (jsstring * json))
  : list (jsstring * json) :=
  match members with
  | [] => [(k, v)]
  | (k', v') :: rest =>
      if decide (k' = k) then (k, v) :: rest else (k', v') :: obj_set k v rest
  end.

(** An array or an object whose closing bracket has not been read. *)
Inductive frame :=
| FArr (items : list json)
| FObj (members : list (jsstring * json)) (key : option jsstring).

Inductive expect :=
| PValue | PArrFirst | PArrNext
| PObjFirst | PObjKey | PObjColon | PObjNext
| PDone (v : json).

Definition deliver (v : json) (stack : list frame) : option (list frame * expect) :=
  match stack with
  | [] => Some ([], PDone v)
  | FArr items :: stack' => Some (FArr (v :: items) :: stack', PArrNext)
  | FObj members (Some k) :: stack' =>
      Some (FObj (obj_set k v members) None :: stack', PObjNext)
  | FObj _ None :: _ => None
  end.

Definition close_array (stack : list frame) : option (list frame * expect) :=
  match stack with
  | FArr items :: stack' => deliver (JArr (reverse items)) stack'
  | _ => None
  end.

Definition close_object (stack : list frame) : option (list frame * expect) :=
  match stack with
  | FObj members None :: stack' => deliver (JObj members) stack'
  | _ => None
  end.

Definition open_key (k : jsstring) (stack : list frame) : option (list frame * expect) :=
  match stack with
  | FObj members None :: stack' => Some (FObj members (Some k) :: stack', PObjColon)
  | _ => None
  end.

Definition parse_value (stack : list frame) (tok : token) : option (list frame * expect) :=
  match tok with
  | TNull => deliver JNull stack
  | TTrue => deliver (JBool true) stack
  | TFalse => deliver (JBool false) stack
  | TNumber n => deliver (JNum n) stack
  | TString s => deliver (JStr s) stack
  | TLBracket => Some (FArr [] :: stack, PArrFirst)
  | TLBrace => Some (FObj [] None :: stack, PObjFirst)
  | _ => None
  end.

Definition parse_step (stack : list frame) (e : expect) (tok : token)
  : option (list frame * expect) :=
  match e, tok with
  | PValue, _ => parse_value stack tok
  | PArrFirst, TRBracket => close_array stack
  | PArrFirst, _ => parse_value stack tok
  | PArrNext, TComma => Some (stack, PValue)
  | PArrNext, TRBracket => close_array stack
  | PObjFirst, TString k => open_key k stack
  | PObjFirst, TRBrace => close_object stack
  | PObjKey, TString k => open_key k stack
  | PObjColon, TColon => Some (stack, PValue)
  | PObjNext, TComma => Some (stack, PObjKey)
  | PObjNext, TRBrace => close_object stack
  | _, _ => None
  end.

Fixpoint parse_run (stack : list frame) (e : expect) (toks : list token)
  : option (list frame * expect) :=
  match toks with
  | [] => Some (stack, e)
  | tok :: toks' =>
      match parse_step stack e tok with
      | Some (stack', e') => parse_run stack' e' toks'
      | None => None
      end
  end.

(** [JSON.parse(text)]: the value, or a [SyntaxError]. *)
Definition JSON_parse (text : jsstring) : outcome json :=
  match lex text with
  | Some toks =>
      match parse_run [] PValue toks with
      | Some ([], PDone v) => Normal v
      | _ => Throws SyntaxError
      end
  | None => Throws SyntaxError
  end.

(** The parser, once inside an outermost array, stays inside it until it
    has the array whole. *)
Definition in_array (stack : list frame) (e : expect) : Prop :=
  (∃ upper items, stack = upper ++ [FArr items])
  ∨ (stack = [] ∧ ∃ items, e = PDone (JArr items)).

End Json.

(** ** [js/post-loader.js]: the front matter of a post document *)

Module PostLoader.
Import Js Json.

(** What [parseFrontMatter] returns: [{ metadata, content }].  A metadata
    value is a plain string ([JStr]) or what [JSON.parse] gave for [tags]. *)
Record parsed := mkParsed {
  metadata : gmap jsstring json;
  content : jsstring
}.

Definition OPENING : jsstring := str "---" ++ [LF].
Definition CLOSING : jsstring := LF :: str "---" ++ [LF].

(** [content.match(re)], where [re] anchors the fence line "---\n" at the
    start of the text, takes any characters lazily up to the first "\n---\n",
    and takes all that follows as the second group. *)
Definition match_front_matter (content : jsstring) : option (jsstring * jsstring) :=
  if startsWith content OPENING then cut (drop (length OPENING) content) CLOSING
  else None.

(** The quote removal of a value:
    [if ((value.startsWith('"') && value.endsWith('"')) ||
         (value.startsWith("'") && value.endsWith("'"))) value = value.slice(1, -1)] *)
Definition unquote (value : jsstring) : jsstring :=
  if startsWith value [DQUOTE] && endsWith value [DQUOTE]
     || startsWith value [SQUOTE] && endsWith value [SQUOTE]
  then slice value 1 (-1)
  else value.

Definition is_quote (c : N) : bool := ((c =? DQUOTE) || (c =? SQUOTE))%N.

(** [tag.replace(/^['"]|['"]$/g, '')]: a quote at the start is removed, then
    a quote at the end of what follows it. *)
Definition strip_quote_marks (tag : jsstring) : jsstring :=
  let rest := match tag with
              | c :: tag' => if is_quote c then tag' else tag
              | [] => []
              end in
  match reverse rest with
  | c :: front => if is_quote c then reverse front else rest
  | [] => rest
  end.

(** The [catch] branch of the tags parsing:
    [value.slice(1, -1).split(',').map(tag => tag.trim().replace(...))] *)
Definition split_tags (value : jsstring) : json :=
  JArr ((λ tag, JStr (strip_quote_marks (trim tag))) <$> split (slice value 1 (-1)) COMMA).

(** [try { value = JSON.parse(value) } catch { value = ... }] *)
Definition parse_tags (value : jsstring) : outcome json :=
  try_catch (JSON_parse value) (λ _, Normal (split_tags value)).

(** [metadata[key] = value] on a plain object: an assignment to [__proto__]
    goes to the inherited setter and gives the object no member of its own
    (the value is a string there, which the setter ignores). *)
Definition set_property (metadata : gmap jsstring json) (key : jsstring) (value : json)
  : gmap jsstring json :=
  if decide (key = str "__proto__") then metadata else <[key := value]> metadata.

(** The body of [lines.forEach(line => ...)]. *)
Definition parseLine (metadata : gmap jsstring json) (line : jsstring)
  : outcome (gmap jsstring json) :=
  match indexOf line COLON with
  | Some (S i) =>
      let colonIndex := S i in
      let key := trim (substring line 0 colonIndex) in
      let value := unquote (trim (substring_from line (colonIndex + 1))) in
      value' ← (if bool_decide (key = str "tags")
                   && startsWith value [LBRACKET] && endsWith value [RBRACKET]
                then parse_tags value
                else Normal (JStr value));
      Normal (set_property metadata key value')
  | _ => Normal metadata
  end.

Fixpoint forEach {S A} (f : S → A → outcome S) (s : S) (l : list A) : outcome S :=
  match l with
  | [] => Normal s
  | x :: l' => s' ← f s x; forEach f s' l'
  end.

Definition parseFrontMatter (content : jsstring) : outcome parsed :=
  match match_front_matter content with
  | None => Normal {| metadata := ∅; content := content |}
  | Some (frontMatter, postContent) =>
      metadata ← forEach parseLine ∅ (split frontMatter LF);
      Normal {| metadata := metadata; content := postContent |}
  end.

(** What a line of the front matter gives: the key and the value the body
    of the loop assigns, or nothing for a line without a colon past its
    first character. *)
Definition line_entry (line : jsstring) : option (jsstring * json) :=
  match indexOf line COLON with
  | Some (S i) =>
      let colonIndex := S i in
      let key := trim (substring line 0 colonIndex) in
      let value := unquote (trim (substring_from line (colonIndex + 1))) in
      Some (key,
            if bool_decide (key = str "tags")
               && startsWith value [LBRACKET] && endsWith value [RBRACKET]
            then match JSON_parse value with
                 | Normal tags => tags
                 | Throws _ => split_tags value
                 end
            else JStr value)
  | _ => None
  end.

(** [s.replace(/c/g, by)] for a pattern of one character. *)
Definition replaceAll (s : jsstring) (c : N) (by_ : jsstring) : jsstring :=
  mjoin ((λ d, if (d =? c)%N then by_ else [d]) <$> s).

Definition LT : N := 60.
Definition GT : N := 62.

(** [renderMarkdown(content)]: [marked] is the renderer of the page when it
    is loaded; without it the text is escaped and its line breaks kept. *)
Definition renderMarkdown (marked : option (jsstring → jsstring)) (content : jsstring)
  : jsstring :=
  match marked with
  | Some parse => parse content
  | None => replaceAll (replaceAll (replaceAll content LT (str "&lt;")) GT (str "&gt;"))
              LF (str "<br>")
  end.

End PostLoader.

(** ** [js/app.js]: the post index, its tags and the filter *)

Module App.
Import Js.

(** The [tags] member of a post record of [posts.json]. *)
Inductive tags_field :=
| TagsAbsent
| TagsNull
| TagsArray (tags : list jsstring).

Record Post := mkPost {
  file : jsstring;
  title : jsstring;
  date : jsstring;
  category : option jsstring;
  excerpt : jsstring;
  tags : tags_field
}.

(** A JSON value that is not an array, as far as the script tells them
    apart: [null]; a value whose [length] is 0 (the empty string, an object
    with a member "length": 0); any other (a boolean, a number, a non-empty
    string, another object). *)
Inductive non_array := NullValue | ZeroLength | OtherValue.

(** What [response.json()] may resolve to, as this module reads it: an
    array of post records, or a value that is not an array.  An array that
    holds other records is the matter of module [Index] below. *)
Inductive index_json :=
| PostArray (posts : list Post)
| NotAnArray (v : non_array).

(** What [fetch('posts.json')] and reading its body may come to. *)
Inductive response :=
| Unreachable
| NotOk
| InvalidBody
| Body (v : index_json).

Inductive display := DisplayInitial | DisplayBlock | DisplayNone.

(** The globals of the script and the elements of the page it writes.
    [tagsContainer] is the markup assigned to its [innerHTML]; [postsList]
    is the markup assigned to its [innerHTML], kept as the posts whose
    articles it holds. *)
Record state := mkState {
  allPosts : index_json;
  allTags : list jsstring;
  activeTag : option jsstring;
  postsList : list Post;
  noPostsEl : display;
  tagsContainer_display : display;
  tagsContainer : jsstring;
  loadingEl_display : display;
  loadingEl_failure : bool;
  searchInput_value : jsstring
}.

Definition set_allPosts v st :=
  mkState v (allTags st) (activeTag st) (postsList st) (noPostsEl st)
    (tagsContainer_display st) (tagsContainer st)
    (loadingEl_display st) (loadingEl_failure st) (searchInput_value st).
Definition set_allTags v st :=
  mkState (allPosts st) v (activeTag st) (postsList st) (noPostsEl st)
    (tagsContainer_display st) (tagsContainer st)
    (loadingEl_display st) (loadingEl_failure st) (searchInput_value st).
Definition set_activeTag v st :=
  mkState (allPosts st) (allTags st) v (postsList st) (noPostsEl st)
    (tagsContainer_display st) (tagsContainer st)
    (loadingEl_display st) (loadingEl_failure st) (searchInput_value st).
Definition set_postsList v st :=
  mkState (allPosts st) (allTags st) (activeTag st) v (noPostsEl st)
    (tagsContainer_display st) (tagsContainer st)
    (loadingEl_display st) (loadingEl_failure st) (searchInput_value st).
Definition set_noPostsEl v st :=
  mkState (allPosts st) (allTags st) (activeTag st) (postsList st) v
    (tagsContainer_display st) (tagsContainer st)
    (loadingEl_display st) (loadingEl_failure st) (searchInput_value st).
Definition set_tagsContainer_display v st :=
  mkState (allPosts st) (allTags st) (activeTag st) (postsList st) (noPostsEl st)
    v (tagsContainer st)
    (loadingEl_display st) (loadingEl_failure st) (searchInput_value st).
Definition set_tagsContainer v st :=
  mkState (allPosts st) (allTags st) (activeTag st) (postsList st) (noPostsEl st)
    (tagsContainer_display st) v
    (loadingEl_display st) (loadingEl_failure st) (searchInput_value st).
Definition set_loadingEl_display v st :=
  mkState (allPosts st) (allTags st) (activeTag st) (postsList st) (noPostsEl st)
    (tagsContainer_display st) (tagsContainer st)
    v (loadingEl_failure st) (searchInput_value st).
Definition set_loadingEl_failure v st :=
  mkState (allPosts st) (allTags st) (activeTag st) (postsList st) (noPostsEl st)
    (tagsContainer_display st) (tagsContainer st)
    (loadingEl_display st) v (searchInput_value st).
Definition set_searchInput_value v st :=
  mkState (allPosts st) (allTags st) (activeTag st) (postsList st) (noPostsEl st)
    (tagsContainer_display st) (tagsContainer st)
    (loadingEl_display st) (loadingEl_failure st) v.

(** When the script is loaded: [allPosts = []], [allTags = []],
    [activeTag = null], the page as served. *)
Definition initial : state :=
  mkState (PostArray []) [] None [] DisplayInitial DisplayInitial []
    DisplayInitial false [].

(** *** Statements that read and write the state and may throw *)

Definition M (A : Type) : Type := state → outcome A * state.

Global Instance M_ret : MRet M := λ A a st, (Normal a, st).
Global Instance M_bind : MBind M := λ A B k m st,
  match m st with
  | (Normal a, st') => k a st'
  | (Throws e, st') => (Throws e, st')
  end.

Definition get : M state := λ st, (Normal st, st).
Definition modify (f : state → state) : M unit := λ st, (Normal (), f st).
Definition throw {A} (e : exn) : M A := λ st, (Throws e, st).

(** An expression that may throw and does not touch the state. *)
Definition lift {A} (o : outcome A) : M A := λ st, (o, st).

(** [try { body } catch (error) { handler }]: the handler runs in the state
    the body had reached. *)
Definition try_catch {A} (body : M A) (handler : exn → M A) : M A := λ st,
  match body st with
  | (Normal a, st') => (Normal a, st')
  | (Throws e, st') => handler e st'
  end.

(** The state a statement leaves, thrown or not. *)
Definition exec {A} (m : M A) (st : state) : state := (m st).2.

(** *** Truthiness and order of strings *)

(** [if (s)] for a string or [null]: [null] and the empty string are falsy. *)
Definition truthy (s : option jsstring) : bool :=
  match s with
  | Some (_ :: _) => true
  | _ => false
  end.

(** [x < y] on strings: the order of the code units. *)
Fixpoint lt_str (x y : jsstring) : bool :=
  match x, y with
  | [], _ :: _ => true
  | c :: x', d :: y' => (c <? d)%N || (c =? d)%N && lt_str x' y'
  | _, [] => false
  end.

(** The default comparison of [sort] puts [x] before [y] unless [y < x]. *)
Definition sort_le (x y : jsstring) : Prop := lt_str y x = false.

Global Instance sort_le_dec x y : Decision (sort_le x y).
Proof. unfold sort_le. apply _. Defined.

(** [array.sort()] on strings. *)
Definition sort (l : list jsstring) : list jsstring := merge_sort sort_le l.

(** *** [extractTags] *)

(** [tagSet.add(tag)]: a [Set] keeps its members in the order of insertion. *)
Definition Set_add (tagSet : list jsstring) (tag : jsstring) : list jsstring :=
  if decide (tag ∈ tagSet) then tagSet else tagSet ++ [tag].

(** [if (post.tags && Array.isArray(post.tags)) post.tags.forEach(tag => tagSet.add(tag))] *)
Definition add_post_tags (tagSet : list jsstring) (post : Post) : list jsstring :=
  match tags post with
  | TagsArray l => foldl Set_add tagSet l
  | TagsAbsent | TagsNull => tagSet
  end.

(** A post brings a tag when its [tags] member is an array that holds it. *)
Definition brings (post : Post) (tag : jsstring) : Prop :=
  ∃ l, tags post = TagsArray l ∧ tag ∈ l.

(** [Array.from(tagSet).sort()] after the loop over the posts. *)
Definition tags_of (posts : list Post) : list jsstring :=
  sort (foldl add_post_tags [] posts).

Definition extractTags : M unit :=
  st ← get;
  match allPosts st with
  | PostArray posts => modify (set_allTags (tags_of posts))
  | NotAnArray _ => throw TypeError
  end.

(** *** [escapeHTML]

    [escapeHTML(str)], on a string: the text is put in an element and read
    back as markup, which writes [&], [<], [>] and the no-break space as
    character references and leaves every other character, the double
    quote among them; the empty string is returned as it is. *)
Definition escapeHTML (s : jsstring) : jsstring :=
  mjoin ((λ c, if (c =? 38)%N then str "&amp;"
               else if (c =? 60)%N then str "&lt;"
               else if (c =? 62)%N then str "&gt;"
               else if (c =? 160)%N then str "&nbsp;"
               else [c]) <$> s).

(** *** [renderTags] *)

(** The label of the button that clears the tag, two Hangul syllables. *)
Definition ALL : jsstring := [51204; 52404]%N.

(** The template of a button: the class [tag], followed by [active] or by
    nothing, the attribute [data-tag] between double quotes, and the label.
    The texts are put in as they are given. *)
Definition button_html (active : bool) (data_tag label : jsstring) : jsstring :=
  str "<button class=" ++ [DQUOTE] ++ str "tag "
  ++ (if active then str "active" else []) ++ [DQUOTE]
  ++ str " data-tag=" ++ [DQUOTE] ++ data_tag ++ [DQUOTE]
  ++ str ">" ++ label ++ str "</button>".

(** The button written for a tag: the escaped tag is both its [data-tag]
    and its label. *)
Definition tag_button (activeTag : option jsstring) (tag : jsstring) : jsstring :=
  let isActive := bool_decide (activeTag = Some tag) in
  button_html isActive (escapeHTML tag) (escapeHTML tag).

Definition renderTags : M unit :=
  st ← get;
  match allTags st with
  | [] => modify (set_tagsContainer_display DisplayNone)
  | _ =>
      let tagsHTML := button_html (negb (truthy (activeTag st))) [] ALL in
      let tagsHTML :=
        foldl (λ tagsHTML tag, tagsHTML ++ tag_button (activeTag st) tag)
              tagsHTML (allTags st) in
      modify (set_tagsContainer tagsHTML)
  end.

(** The markup of a tag bar, all at once: the button that clears the tag,
    active when no tag is, then the button of each tag. *)
Definition tag_bar (activeTag : option jsstring) (allTags : list jsstring) : jsstring :=
  button_html (negb (truthy activeTag)) [] ALL ++ mjoin (tag_button activeTag <$> allTags).

(** *** [filterPosts] *)

(** [post.tags && post.tags.includes(activeTag)] *)
Definition has_tag (tag : jsstring) (post : Post) : bool :=
  match tags post with
  | TagsArray l => bool_decide (tag ∈ l)
  | TagsAbsent | TagsNull => false
  end.

(** [posts.filter(f)]: only an array has the method. *)
Definition Array_filter (f : Post → bool) (v : index_json) : M index_json :=
  match v with
  | PostArray posts => mret (PostArray (filter f posts))
  | NotAnArray _ => throw TypeError
  end.

(** [v.length === 0]: reading a property of [null] throws. *)
Definition length_is_zero (v : index_json) : M bool :=
  match v with
  | NotAnArray NullValue => throw TypeError
  | PostArray [] | NotAnArray ZeroLength => mret true
  | PostArray (_ :: _) | NotAnArray OtherValue => mret false
  end.

(** The article written for a post.  Its link is made with
    [encodeURIComponent(post.file)], which throws when the file name holds a
    surrogate outside a pair; the other members are put in as text, which
    does not throw.  The article is kept as the post it is made from. *)
Definition article (post : Post) : outcome Post :=
  href ← encodeURIComponent (file post);
  Normal post.

(** The file names of the posts can all be encoded. *)
Definition encodable (posts : list Post) : Prop :=
  Forall (λ post, isWellFormed (file post) = true) posts.

Global Instance encodable_dec posts : Decision (encodable posts).
Proof. unfold encodable. apply _. Defined.

(** [posts.map(post => ...)]: the article of each post, in order; only an
    array has the method. *)
Definition Array_map (v : index_json) : M (list Post) :=
  match v with
  | PostArray posts => lift (mapM article posts)
  | NotAnArray _ => throw TypeError
  end.

Section Filter.

(** [String.prototype.toLowerCase], the case mapping of the engine. *)
Variable toLowerCase : jsstring → jsstring.

(** [post.title.toLowerCase().includes(query) ||
     post.excerpt.toLowerCase().includes(query) ||
     (post.tags && post.tags.some(tag => tag.toLowerCase().includes(query)))] *)
Definition matches_query (query : jsstring) (post : Post) : bool :=
  includes (toLowerCase (title post)) query
  || includes (toLowerCase (excerpt post)) query
  || match tags post with
     | TagsArray l => existsb (λ tag, includes (toLowerCase tag) query) l
     | TagsAbsent | TagsNull => false
     end.

Definition filterPosts (searchQuery : jsstring) : M index_json :=
  st ← get;
  let filtered := allPosts st in
  filtered ← match activeTag st with
             | Some tag =>
                 if truthy (Some tag) then Array_filter (has_tag tag) filtered
                 else mret filtered
             | None => mret filtered
             end;
  filtered ← (if truthy (Some searchQuery)
              then let query := toLowerCase searchQuery in
                   Array_filter (matches_query query) filtered
              else mret filtered);
  mret filtered.

(** *** [renderPosts]

    The mark for "no posts" is hidden before the articles are made; the
    list is written once all of them are. *)
Definition renderPosts (posts : index_json) : M unit :=
  length_is_zero posts ≫= λ none : bool,
  if none then
    modify (set_postsList []);;
    modify (set_noPostsEl DisplayBlock)
  else
    modify (set_noPostsEl DisplayNone);;
    postsHTML ← Array_map posts;
    modify (set_postsList postsHTML).

(** *** [handleTagClick], with [selectedTag = event.target.dataset.tag] *)

Definition select_tag (activeTag : option jsstring) (selectedTag : jsstring)
  : option jsstring :=
  if bool_decide (activeTag = Some selectedTag)
     || bool_decide (selectedTag = []) && negb (truthy activeTag)
  then None
  else if truthy (Some selectedTag) then Some selectedTag else None.

Definition handleTagClick (selectedTag : jsstring) : M unit :=
  st ← get;
  modify (set_activeTag (select_tag (activeTag st) selectedTag));;
  renderTags;;
  filteredPosts ← filterPosts [];
  renderPosts filteredPosts.

(** *** [updateSearchResults], called from the search box *)

Definition updateSearchResults (query : jsstring) : M unit :=
  filteredPosts ← filterPosts query;
  renderPosts filteredPosts.

(** *** [loadPosts] *)

Definition loadPosts (r : response) : M unit :=
  try_catch
    (match r with
     | Unreachable => throw TypeError
     | NotOk => throw Error
     | InvalidBody => throw SyntaxError
     | Body v =>
         modify (set_allPosts v);;
         extractTags;;
         renderTags;;
         (st ← get; renderPosts (allPosts st));;
         modify (set_loadingEl_display DisplayNone);;
         st ← get;
         length_is_zero (allPosts st) ≫= λ none : bool,
         if none then modify (set_noPostsEl DisplayBlock) else mret ()
     end)
    (λ error, modify (set_loadingEl_failure true)).

End Filter.

(** The case mapping on the letters A to Z, the rest left as it is: what
    [toLowerCase] does on text in Basic Latin. *)
Definition lower_latin (s : jsstring) : jsstring :=
  (λ c, if (65 <=? c)%N && (c <=? 90)%N then (c + 32)%N else c) <$> s.

(** What happens on the page once the index is loaded: a click in the tag
    bar, given by the [data-tag] of its target, which may be any string (the
    markup of the bar is read by the browser), and a call from the search
    box. *)
Inductive event :=
| TagClick (selectedTag : jsstring)
| SearchResults (query : jsstring).

Definition step (toLowerCase : jsstring → jsstring) (st : state) (ev : event) : state :=
  match ev with
  | TagClick selectedTag => exec (handleTagClick toLowerCase selectedTag) st
  | SearchResults query => exec (updateSearchResults toLowerCase query) st
  end.

Definition run (toLowerCase : jsstring → jsstring) (evs : list event) (st : state) : state :=
  foldl (step toLowerCase) st evs.

(** An index of three posts, for the examples. *)
Module Sample.

Definition hello : Post :=
  mkPost (str "hello.md") (str "Hello World") (str "2024-01-01") None
    (str "The first post") (TagsArray [str "js"; str "Web"]).

Definition notes : Post :=
  mkPost (str "notes.md") (str "Notes") (str "2024-02-01") (Some (str "misc"))
    (str "Loose notes") TagsAbsent.

Definition styles : Post :=
  mkPost (str "styles.md") (str "Style sheets") (str "2024-03-01") None
    (str "On CSS") (TagsArray [str "web"; str "js"; str "css"]).

Definition posts : list Post := [hello; notes; styles].

(** A post whose file name is a lone surrogate, as the index can give it
    with an escape of the form u-D800. *)
Definition broken : Post :=
  mkPost [55296%N] (str "Broken") (str "2024-04-01") None
    (str "A file name that cannot be encoded") (TagsArray [str "js"]).

(** The page once [loadPosts] has run on these posts. *)
Definition loaded : state := exec (loadPosts (Body (PostArray posts))) initial.

End Sample.

End App.

(** ** [js/app.js]: [loadPosts] on any index

    The script does not check what [posts.json] holds.  Here the elements of
    the array are [null] or records whose members are absent or hold any
    value among [null], booleans, numbers, strings and arrays of strings,
    and the load is followed on them.  (Members that are objects, and
    arrays that hold other values than strings, are left out.) *)

Module Index.
Import Js.

(** A member of a record: absent, or its value.  Of a number the script can
    only tell here whether it is zero. *)
Inductive member :=
| Absent
| Null
| Bool (b : bool)
| Num (zero : bool)
| Str (s : jsstring)
| Strs (l : list jsstring).

(** The members the script reads. *)
Record record := mkRecord {
  file : member;
  title : member;
  date : member;
  category : member;
  excerpt : member;
  tags : member
}.

(** An element of the array: [null], or a record.  A number, a boolean, a
    string or an array standing as an element has none of these members:
    it reads as the record in which all are absent. *)
Inductive element :=
| ENull
| ERecord (post : record).

Global Instance member_eq_dec : EqDecision member.
Proof. solve_decision. Defined.
Global Instance record_eq_dec : EqDecision record.
Proof. solve_decision. Defined.
Global Instance element_eq_dec : EqDecision element.
Proof. solve_decision. Defined.

(** What [response.json()] may resolve to. *)
Inductive index_json :=
| JsonArray (elements : list element)
| NotAnArray (v : App.non_array).

Inductive response :=
| Unreachable
| NotOk
| InvalidBody
| Body (v : index_json).

(** The globals and the page, as in [App]; the list holds the elements
    whose articles it was given. *)
Record state := mkState {
  allPosts : index_json;
  allTags : list jsstring;
  activeTag : option jsstring;
  postsList : list element;
  noPostsEl : App.display;
  tagsContainer_display : App.display;
  tagsContainer : jsstring;
  loadingEl_display : App.display;
  loadingEl_failure : bool
}.

Definition set_allPosts v st :=
  mkState v (allTags st) (activeTag st) (postsList st) (noPostsEl st)
    (tagsContainer_display st) (tagsContainer st)
    (loadingEl_display st) (loadingEl_failure st).
Definition set_allTags v st :=
  mkState (allPosts st) v (activeTag st) (postsList st) (noPostsEl st)
    (tagsContainer_display st) (tagsContainer st)
    (loadingEl_display st) (loadingEl_failure st).
Definition set_postsList v st :=
  mkState (allPosts st) (allTags st) (activeTag st) v (noPostsEl st)
    (tagsContainer_display st) (tagsContainer st)
    (loadingEl_display st) (loadingEl_failure st).
Definition set_noPostsEl v st :=
  mkState (allPosts st) (allTags st) (activeTag st) (postsList st) v
    (tagsContainer_display st) (tagsContainer st)
    (loadingEl_display st) (loadingEl_failure st).
Definition set_tagsContainer_display v st :=
  mkState (allPosts st) (allTags st) (activeTag st) (postsList st) (noPostsEl st)
    v (tagsContainer st)
    (loadingEl_display st) (loadingEl_failure st).
Definition set_tagsContainer v st :=
  mkState (allPosts st) (allTags st) (activeTag st) (postsList st) (noPostsEl st)
    (tagsContainer_display st) v
    (loadingEl_display st) (loadingEl_failure st).
Definition set_loadingEl_display v st :=
  mkState (allPosts st) (allTags st) (activeTag st) (postsList st) (noPostsEl st)
    (tagsContainer_display st) (tagsContainer st)
    v (loadingEl_failure st).
Definition set_loadingEl_failure v st :=
  mkState (allPosts st) (allTags st) (activeTag st) (postsList st) (noPostsEl st)
    (tagsContainer_display st) (tagsContainer st)
    (loadingEl_display st) v.

Definition initial : state :=
  mkState (JsonArray []) [] None [] App.DisplayInitial App.DisplayInitial []
    App.DisplayInitial false.

Definition M (A : Type) : Type := state → outcome A * state.

Global Instance M_ret : MRet M := λ A a st, (Normal a, st).
Global Instance M_bind : MBind M := λ A B k m st,
  match m st with
  | (Normal a, st') => k a st'
  | (Throws e, st') => (Throws e, st')
  end.

Definition get : M state := λ st, (Normal st, st).
Definition modify (f : state → state) : M unit := λ st, (Normal (), f st).
Definition throw {A} (e : exn) : M A := λ st, (Throws e, st).
Definition lift {A} (o : outcome A) : M A := λ st, (o, st).

Definition try_catch {A} (body : M A) (handler : exn → M A) : M A := λ st,
  match body st with
  | (Normal a, st') => (Normal a, st')
  | (Throws e, st') => handler e st'
  end.

Definition exec {A} (m : M A) (st : state) : state := (m st).2.

(** [if (m)]: [undefined], [null], [false], zero and the empty string are
    falsy. *)
Definition truthy (m : member) : bool :=
  match m with
  | Absent | Null => false
  | Bool b => b
  | Num zero => negb zero
  | Str s => App.truthy (Some s)
  | Strs _ => true
  end.

Definition Array_isArray (m : member) : bool :=
  match m with
  | Strs _ => true
  | _ => false
  end.

(** *** [extractTags] *)

(** The body of [allPosts.forEach(post => ...)]: reading [post.tags] throws
    when [post] is [null]. *)
Definition add_post_tags (tagSet : list jsstring) (post : element)
  : outcome (list jsstring) :=
  match post with
  | ENull => Throws TypeError
  | ERecord post =>
      if truthy (tags post) && Array_isArray (tags post)
      then match tags post with
           | Strs l => Normal (foldl App.Set_add tagSet l)
           | _ => Normal tagSet
           end
      else Normal tagSet
  end.

Fixpoint forEach {S A} (f : S → A → outcome S) (s : S) (l : list A) : outcome S :=
  match l with
  | [] => Normal s
  | x :: l' => s' ← f s x; forEach f s' l'
  end.

(** [allTags] is assigned after the loop, if the loop ends. *)
Definition extractTags : M unit :=
  st ← get;
  match allPosts st with
  | JsonArray posts =>
      tagSet ← lift (forEach add_post_tags [] posts);
      modify (set_allTags (App.sort tagSet))
  | NotAnArray _ => throw TypeError
  end.

(** *** [renderTags]: the tags are strings, the markup is that of [App]. *)

Definition renderTags : M unit :=
  st ← get;
  match allTags st with
  | [] => modify (set_tagsContainer_display App.DisplayNone)
  | _ =>
      let tagsHTML := App.button_html (negb (App.truthy (activeTag st))) [] App.ALL in
      let tagsHTML :=
        foldl (λ tagsHTML tag, tagsHTML ++ App.tag_button (activeTag st) tag)
              tagsHTML (allTags st) in
      modify (set_tagsContainer tagsHTML)
  end.

(** *** [renderPosts] *)

(** [post.tags && post.tags.length > 0 ? post.tags.map(...) : ''].  A
    non-empty string has a positive length and no [map]: the call throws.
    A boolean or a number has no [length], an empty string or array has
    length 0, and an array of strings is mapped. *)
Definition tagsHTML (m : member) : outcome unit :=
  match m with
  | Str (_ :: _) => Throws TypeError
  | _ => Normal ()
  end.

(** [array.join(',')], which is what an array becomes where a string is
    wanted. *)
Fixpoint join (l : list jsstring) : jsstring :=
  match l with
  | [] => []
  | [s] => s
  | s :: l' => s ++ COMMA :: join l'
  end.

(** [encodeURIComponent(post.file)].  The member is made a string first;
    [undefined], [null], a boolean and a number give ASCII text, which is
    encoded without fail. *)
Definition href (m : member) : outcome unit :=
  match m with
  | Str s => encoded ← encodeURIComponent s; Normal ()
  | Strs l => encoded ← encodeURIComponent (join l); Normal ()
  | Absent | Null | Bool _ | Num _ => Normal ()
  end.

(** The article of an element: its tags are written first, then its link;
    the title, the date, the category and the excerpt are put in as text
    and do not throw.  The article is kept as the element. *)
Definition article (post : element) : outcome element :=
  match post with
  | ENull => Throws TypeError
  | ERecord r =>
      tagsHTML (tags r);;
      href (file r);;
      Normal post
  end.

Definition length_is_zero (v : index_json) : M bool :=
  match v with
  | NotAnArray App.NullValue => throw TypeError
  | JsonArray [] | NotAnArray App.ZeroLength => mret true
  | JsonArray (_ :: _) | NotAnArray App.OtherValue => mret false
  end.

Definition Array_map (v : index_json) : M (list element) :=
  match v with
  | JsonArray posts => lift (mapM article posts)
  | NotAnArray _ => throw TypeError
  end.

Definition renderPosts (posts : index_json) : M unit :=
  length_is_zero posts ≫= λ none : bool,
  if none then
    modify (set_postsList []);;
    modify (set_noPostsEl App.DisplayBlock)
  else
    modify (set_noPostsEl App.DisplayNone);;
    postsHTML ← Array_map posts;
    modify (set_postsList postsHTML).

(** *** [loadPosts] *)

Definition loadPosts (r : response) : M unit :=
  try_catch
    (match r with
     | Unreachable => throw TypeError
     | NotOk => throw Error
     | InvalidBody => throw SyntaxError
     | Body v =>
         modify (set_allPosts v);;
         extractTags;;
         renderTags;;
         (st ← get; renderPosts (allPosts st));;
         modify (set_loadingEl_display App.DisplayNone);;
         st ← get;
         length_is_zero (allPosts st) ≫= λ none : bool,
         if none then modify (set_noPostsEl App.DisplayBlock) else mret ()
     end)
    (λ error, modify (set_loadingEl_failure true)).

(** *** What makes the load fail on an array *)

(** The record cannot be rendered: its [tags] member is a non-empty string,
    or its file name, made a string, holds a surrogate outside a pair. *)
Definition unrenderable (post : element) : bool :=
  match post with
  | ENull => true
  | ERecord r =>
      match tags r with
      | Str (_ :: _) => true
      | _ =>
          match file r with
          | Str s => negb (isWellFormed s)
          | Strs l => negb (isWellFormed (join l))
          | _ => false
          end
      end
  end.

(** The tags the records of the array bring, in the order [extractTags]
    stores them. *)
Definition brought (post : element) : list jsstring :=
  match post with
  | ERecord r => match tags r with Strs l => l | _ => [] end
  | ENull => []
  end.

Definition tags_of (posts : list element) : list jsstring :=
  App.sort (foldl (λ tagSet post, foldl App.Set_add tagSet (brought post)) [] posts).

(** *** The post records of [App] among these *)

Definition of_tags (t : App.tags_field) : member :=
  match t with
  | App.TagsAbsent => Absent
  | App.TagsNull => Null
  | App.TagsArray l => Strs l
  end.

Definition of_post (post : App.Post) : element :=
  ERecord (mkRecord (Str (App.file post)) (Str (App.title post)) (Str (App.date post))
             (from_option Str Absent (App.category post))
             (Str (App.excerpt post)) (of_tags (App.tags post))).

Definition of_index (v : App.index_json) : index_json :=
  match v with
  | App.PostArray posts => JsonArray (of_post <$> posts)
  | App.NotAnArray v => NotAnArray v
  end.

Definition of_response (r : App.response) : response :=
  match r with
  | App.Unreachable => Unreachable
  | App.NotOk => NotOk
  | App.InvalidBody => InvalidBody
  | App.Body v => Body (of_index v)
  end.

Definition of_state (st : App.state) : state :=
  mkState (of_index (App.allPosts st)) (App.allTags st) (App.activeTag st)
    (of_post <$> App.postsList st) (App.noPostsEl st)
    (App.tagsContainer_display st) (App.tagsContainer st)
    (App.loadingEl_display st) (App.loadingEl_failure st).

(** Examples: a record whose tags are written as text, and one with no
    member at all. *)
Module Sample.

Definition text_tags : element :=
  ERecord (mkRecord (Str (str "a.md")) (Str (str "A")) (Str (str "2024-01-01")) Absent
             (Str (str "About a")) (Str (str "web, js"))).

Definition bare : element :=
  ERecord (mkRecord Absent Absent Absent Absent Absent Absent).

End Sample.

End Index.

(** ** [js/search.js]: the debounced search box *)

Module SearchBox.
Import Js.

Definition DEBOUNCE_DELAY : N := 300.

(** A timeout set and not yet run: its handle, the time it is due, and the
    [query] its callback has captured. *)
Record timer := mkTimer {
  timer_id : positive;
  timer_due : N;
  timer_query : jsstring
}.

(** The global [searchTimeout], the timeouts of the window in the order they
    were set, the input element, and the calls of
    [window.updateSearchResults] made so far, each with its time. *)
Record state := mkState {
  searchTimeout : option positive;
  timers : list timer;
  next_id : positive;
  searchInput_value : jsstring;
  app_loaded : bool;
  calls : list (N * jsstring)
}.

Definition initial : state := mkState None [] 1%positive [] true [].

(** [if (typeof window.updateSearchResults === 'function')
       window.updateSearchResults(query)] *)
Definition call_updateSearchResults (now : N) (query : jsstring) (st : state) : state :=
  if app_loaded st
  then mkState (searchTimeout st) (timers st) (next_id st) (searchInput_value st)
         (app_loaded st) (calls st ++ [(now, query)])
  else st.

(** [clearTimeout(id)] *)
Definition clearTimeout (id : positive) (st : state) : state :=
  mkState (searchTimeout st) (filter (λ t, timer_id t ≠ id) (timers st)) (next_id st)
    (searchInput_value st) (app_loaded st) (calls st).

(** [searchTimeout = setTimeout(() => ..., DEBOUNCE_DELAY)] at time [now];
    handles are positive, hence truthy. *)
Definition setTimeout (now : N) (query : jsstring) (st : state) : state :=
  let id := next_id st in
  mkState (Some id) (timers st ++ [mkTimer id (now + DEBOUNCE_DELAY) query])
    (Pos.succ id) (searchInput_value st) (app_loaded st) (calls st).

(** [handleSearch(event)] at time [now], [value] being [event.target.value]. *)
Definition handleSearch (now : N) (value : jsstring) (st : state) : state :=
  let query := trim value in
  let st := match searchTimeout st with
            | Some id => clearTimeout id st
            | None => st
            end in
  setTimeout now query st.

(** The second [keydown] listener of [initSearch]. *)
Definition handleEscape (now : N) (st : state) : state :=
  call_updateSearchResults now []
    (mkState (searchTimeout st) (timers st) (next_id st) [] (app_loaded st) (calls st)).

(** The event loop runs the callback of a timeout when its delay has
    elapsed; every timeout has the same delay, so they are due in the order
    they were set. *)
Fixpoint run_due (now : N) (pending : list timer) (st : state) : state :=
  match pending with
  | [] => st
  | t :: pending' =>
      if (timer_due t <=? now)%N
      then run_due now pending'
             (call_updateSearchResults (timer_due t) (timer_query t)
                (mkState (searchTimeout st)
                   (filter (λ t', timer_id t' ≠ timer_id t) (timers st))
                   (next_id st) (searchInput_value st) (app_loaded st) (calls st)))
      else run_due now pending' st
  end.

Definition advance (now : N) (st : state) : state := run_due now (timers st) st.

Inductive event :=
| InputEvent (value : jsstring)
| EscapeKey
| OtherKey.

(** An event dispatched at time [now]: the timeouts already due run first. *)
Definition dispatch (now : N) (ev : event) (st : state) : state :=
  let st := advance now st in
  match ev with
  | InputEvent value =>
      handleSearch now value
        (mkState (searchTimeout st) (timers st) (next_id st) value (app_loaded st) (calls st))
  | EscapeKey => handleEscape now st
  | OtherKey => st
  end.

Fixpoint run (trace : list (N * event)) (st : state) : state :=
  match trace with
  | [] => st
  | (now, ev) :: trace' => run trace' (dispatch now ev st)
  end.

(** The state between two events: the search box has at most one timeout
    pending, the one [searchTimeout] names. *)
Definition waiting (st : state) (pending : option (N * jsstring)) : Prop :=
  app_loaded st = true
  ∧ match pending with
    | None => timers st = []
    | Some (due, query) =>
        ∃ id, timers st = [mkTimer id due query] ∧ searchTimeout st = Some id
    end.

(** The call a pending timeout makes if it is due at time [now]. *)
Definition due_calls (pending : option (N * jsstring)) (now : N) : list (N * jsstring) :=
  match pending with
  | Some (due, query) => if (due <=? now)%N then [(due, query)] else []
  | None => []
  end.

(** At most one timeout is pending, and [searchTimeout] names it. *)
Definition one_pending (st : state) : Prop :=
  timers st = [] ∨ ∃ t, timers st = [t] ∧ searchTimeout st = Some (timer_id t).

(** The input events of a trace, each with its time and text. *)
Definition input_events (inputs : list (N * jsstring)) : list (N * event) :=
  (λ '(t, value), (t, InputEvent value)) <$> inputs.

(** What the debounce is to do with a series of input events, each with
    its time and text: an event counts when no other follows it within the
    delay, and then gives one call, at the end of the delay, with its text
    trimmed. *)
Fixpoint debounced (inputs : list (N * jsstring)) : list (N * jsstring) :=
  match inputs with
  | [] => []
  | (t, value) :: rest =>
      match rest with
      | (t', _) :: _ =>
          if (t' <? t + DEBOUNCE_DELAY)%N then debounced rest
          else (t + DEBOUNCE_DELAY, trim value)%N :: debounced rest
      | [] => [((t + DEBOUNCE_DELAY)%N, trim value)]
      end
  end.

End SearchBox.

(** ** The theme switch (second part of [js/search.js]) *)

Module Theme.
Import Js.

Definition THEME_KEY : jsstring := str "theme".
Definition DARK_THEME : jsstring := str "dark".
Definition LIGHT_THEME : jsstring := str "light".

(** The [data-theme] attribute of the document element, the local storage,
    and the comment widget: whether [window.updateGiscusTheme] is defined,
    whether its frame is in the page, and the themes posted to it. *)
Record state := mkState {
  data_theme : option jsstring;
  localStorage : gmap jsstring jsstring;
  giscus_hook : bool;
  giscus_frame : bool;
  giscus_posted : list jsstring
}.

(** [if (s)] on what [getItem] returns: [null] and the empty string are falsy. *)
Definition truthy (s : option jsstring) : bool :=
  match s with
  | Some (_ :: _) => true
  | _ => false
  end.

(** [updateGiscusTheme(theme)] of [js/post-loader.js]. *)
Definition updateGiscusTheme (theme : jsstring) (st : state) : state :=
  if giscus_frame st
  then mkState (data_theme st) (localStorage st) (giscus_hook st) (giscus_frame st)
         (giscus_posted st
          ++ [if bool_decide (theme = str "dark") then str "dark" else str "light"])
  else st.

Definition setTheme (theme : jsstring) (st : state) : state :=
  let st := mkState (Some theme) (localStorage st) (giscus_hook st) (giscus_frame st)
              (giscus_posted st) in
  if giscus_hook st then updateGiscusTheme theme st else st.

(** [initTheme()], [prefersDark] being what the media query reports. *)
Definition initTheme (prefersDark : bool) (st : state) : state :=
  let savedTheme := localStorage st !! THEME_KEY in
  match savedTheme with
  | Some theme =>
      if truthy savedTheme then setTheme theme st
      else setTheme (if prefersDark then DARK_THEME else LIGHT_THEME) st
  | None => setTheme (if prefersDark then DARK_THEME else LIGHT_THEME) st
  end.

(** The listener [initTheme] registers for a change of the system scheme. *)
Definition systemChange (matches : bool) (st : state) : state :=
  if negb (truthy (localStorage st !! THEME_KEY))
  then setTheme (if matches then DARK_THEME else LIGHT_THEME) st
  else st.

Definition toggleTheme (st : state) : state :=
  let currentTheme := data_theme st in
  let newTheme :=
    if bool_decide (currentTheme = Some DARK_THEME) then LIGHT_THEME else DARK_THEME in
  let st := setTheme newTheme st in
  mkState (data_theme st) (<[THEME_KEY := newTheme]> (localStorage st))
    (giscus_hook st) (giscus_frame st) (giscus_posted st).

(** [getCurrentTheme()] of [js/post-loader.js]. *)
Definition getCurrentTheme (st : state) : jsstring :=
  if bool_decide (data_theme st = Some (str "dark")) then str "dark" else str "light".

Inductive event :=
| Toggle
| SystemChange (matches : bool).

Definition step (st : state) (ev : event) : state :=
  match ev with
  | Toggle => toggleTheme st
  | SystemChange matches => systemChange matches st
  end.

Definition run (evs : list event) (st : state) : state := foldl step st evs.

End Theme.

(** * Properties *)

(** ** The string built-ins *)

Module JsFacts.
Import Js.

Lemma startsWith_spec (s p : jsstring) :
  startsWith s p = true ↔ ∃ rest, s = p ++ rest.
Proof.
  revert s. induction p as [|c p IH]; intros s; simpl.
  - split; [by exists s|done].
  - destruct s as [|d s].
    + split; [done|]. intros [rest ?]. discriminate.
    + rewrite andb_true_iff, N.eqb_eq, IH. split.
      * intros [-> [rest ->]]. eauto.
      * intros [rest [= -> ->]]. eauto.
Qed.

Lemma startsWith_drop (s p : jsstring) :
  startsWith s p = true → s = p ++ drop (length p) s.
Proof.
  intros [rest ->]%startsWith_spec. by rewrite drop_app_length.
Qed.

Lemma endsWith_spec (s p : jsstring) :
  endsWith s p = true ↔ ∃ front, s = front ++ p.
Proof.
  unfold endsWith. rewrite startsWith_spec. split.
  - intros [rest H]. exists (reverse rest).
    apply (inj reverse). by rewrite H, reverse_app, reverse_involutive.
  - intros [front ->]. exists (reverse front). by rewrite reverse_app.
Qed.

(** [includes] is the substring test. *)
Lemma includes_spec (s q : jsstring) :
  includes s q = true ↔ ∃ before after, s = before ++ q ++ after.
Proof.
  induction s as [|c s IH]; simpl.
  - rewrite orb_false_r, startsWith_spec. split.
    + intros [rest ->]. by exists [], rest.
    + intros (before & after & H). symmetry in H.
      apply app_eq_nil in H as [-> H]. apply app_eq_nil in H as [-> ->].
      by exists [].
  - rewrite orb_true_iff, startsWith_spec, IH. split.
    + intros [[rest ->]|(before & after & ->)].
      * by exists [], rest.
      * by exists (c :: before), after.
    + intros (before & after & H). destruct before as [|b before]; simpl in H.
      * left. eauto.
      * injection H as -> ->. right. eauto.
Qed.

(** [cut] splits the text around an occurrence of the separator. *)
Lemma cut_Some (s sep before after : jsstring) :
  cut s sep = Some (before, after) → s = before ++ sep ++ after.
Proof.
  revert before. induction s as [|c s IH]; intros before; simpl.
  - destruct (startsWith [] sep) eqn:E; [|done].
    intros [= <- <-]. by apply startsWith_drop.
  - destruct (startsWith (c :: s) sep) eqn:E.
    + intros [= <- <-]. by apply startsWith_drop.
    + destruct (cut s sep) as [[b a]|] eqn:Ec; [|done].
      simpl. intros [= <- <-]. by rewrite (IH b eq_refl).
Qed.

Lemma cut_unfold (s sep : jsstring) :
  cut s sep =
  if startsWith s sep then Some ([], drop (length sep) s)
  else match s with
       | [] => None
       | c :: s' => (λ '(before, after), (c :: before, after)) <$> cut s' sep
       end.
Proof. by destruct s. Qed.

(** It finds one whenever there is one. *)
Lemma cut_is_Some (s sep : jsstring) :
  (∃ before after, s = before ++ sep ++ after) → is_Some (cut s sep).
Proof.
  intros (before & after & ->).
  induction before as [|c before IH]; simpl.
  - assert (startsWith (sep ++ after) sep = true) as E
      by (apply startsWith_spec; eauto).
    rewrite cut_unfold, E. eauto.
  - destruct (startsWith (c :: before ++ sep ++ after) sep); [eauto|].
    destruct IH as [[b a] ->]. simpl. eauto.
Qed.

(** The part before the separator is the shortest possible: the separator
    does not begin anywhere inside it. *)
Lemma cut_first (s sep before after : jsstring) :
  cut s sep = Some (before, after) →
  ∀ k, k < length before → startsWith (drop k s) sep = false.
Proof.
  revert before. induction s as [|c s IH]; intros before; simpl.
  - destruct (startsWith [] sep); [|done]. intros [= <- <-] k. simpl. lia.
  - destruct (startsWith (c :: s) sep) eqn:E.
    + intros [= <- <-] k. simpl. lia.
    + destruct (cut s sep) as [[b a]|] eqn:Ec; [|done].
      simpl. intros [= <- <-] [|k] Hk; simpl in *; [done|].
      apply (IH b eq_refl). lia.
Qed.

(** The marks and letters that are kept are no surrogates. *)
Lemma uriUnescaped_not_surrogate (c : N) :
  uriUnescaped c = true → is_trail c = false ∧ is_lead c = false.
Proof.
  unfold uriUnescaped, is_trail, is_lead.
  rewrite !orb_true_iff, !andb_true_iff, !andb_false_iff, !N.leb_le, !N.eqb_eq,
    !N.leb_gt.
  lia.
Qed.

Lemma Encode_outcome (n : nat) (s R : jsstring) :
  length s < n →
  if isWellFormed s then ∃ encoded, Encode R s = Normal encoded
  else Encode R s = Throws URIError.
Proof.
  revert s R. induction n as [|n IH]; intros s R Hlen; [lia|].
  destruct s as [|c s]; simpl in *; [eauto|].
  destruct (uriUnescaped c) eqn:U.
  { destruct (uriUnescaped_not_surrogate c U) as [-> ->]. apply IH. lia. }
  destruct (is_trail c); [done|]. destruct (is_lead c); [|apply IH; lia].
  destruct s as [|d s]; [done|]. destruct (is_trail d); [|done].
  simpl in *. apply IH. lia.
Qed.

(** [encodeURIComponent] throws on the texts that are not well formed, and
    on no other. *)
Lemma encodeURIComponent_outcome (s : jsstring) :
  if isWellFormed s then ∃ encoded, encodeURIComponent s = Normal encoded
  else encodeURIComponent s = Throws URIError.
Proof. apply (Encode_outcome (S (length s))). lia. Qed.

End JsFacts.

(** ** Front matter *)

Module PostLoaderFacts.
Import Js Json PostLoader JsFacts.

Lemma parse_tags_normal (value : jsstring) : ∃ v, parse_tags value = Normal v.
Proof. unfold parse_tags, Js.try_catch. destruct (JSON_parse value); eauto. Qed.

Lemma parseLine_normal (metadata : gmap jsstring json) (line : jsstring) :
  ∃ metadata', parseLine metadata line = Normal metadata'.
Proof.
  unfold parseLine. destruct (indexOf line COLON) as [[|i]|]; eauto.
  match goal with |- context [if ?b then _ else _] => destruct b end.
  - destruct (parse_tags_normal
      (unquote (trim (substring_from line (S i + 1))))) as [v ->].
    simpl. eauto.
  - simpl. eauto.
Qed.

Lemma forEach_parseLine_normal (lines : list jsstring) (metadata : gmap jsstring json) :
  ∃ metadata', forEach parseLine metadata lines = Normal metadata'.
Proof.
  revert metadata. induction lines as [|line lines IH]; intros metadata; simpl.
  - eauto.
  - destruct (parseLine_normal metadata line) as [metadata' ->]. simpl. apply IH.
Qed.

(** What the pattern finds is a front matter between the two fences. *)
Lemma match_front_matter_Some (raw frontMatter postContent : jsstring) :
  match_front_matter raw = Some (frontMatter, postContent) →
  raw = OPENING ++ frontMatter ++ CLOSING ++ postContent.
Proof.
  unfold match_front_matter. destruct (startsWith raw OPENING) eqn:E; [|done].
  intros H%cut_Some. rewrite <-H. by apply startsWith_drop.
Qed.

(** It finds one whenever the text has the two fences. *)
Lemma match_front_matter_is_Some (block body : jsstring) :
  is_Some (match_front_matter (OPENING ++ block ++ CLOSING ++ body)).
Proof.
  unfold match_front_matter.
  assert (startsWith (OPENING ++ block ++ CLOSING ++ body) OPENING = true) as ->
    by (apply startsWith_spec; eauto).
  rewrite drop_app_length. apply cut_is_Some. eauto.
Qed.

(** [slice(1, -1)] drops the first and the last code unit. *)
Lemma slice_inner (c d : N) (inner : jsstring) :
  slice (c :: inner ++ [d]) 1 (-1) = inner.
Proof.
  unfold slice.
  assert (Z.of_nat (length (c :: inner ++ [d])) = (Z.of_nat (length inner) + 2)%Z)
    as -> by (simpl; rewrite length_app; simpl; lia).
  change (1 <? 0)%Z with false. change (-1 <? 0)%Z with true. cbv iota.
  replace (Z.to_nat (1 `min` (Z.of_nat (length inner) + 2))) with 1 by lia.
  replace (Z.to_nat _) with (length inner) by lia.
  change (drop 1 (c :: inner ++ [d])) with (inner ++ [d]). by rewrite take_app_length.
Qed.

Lemma endsWith_snoc (s : jsstring) (c d : N) :
  endsWith (s ++ [c]) [d] = (d =? c)%N.
Proof.
  unfold endsWith. rewrite reverse_app, reverse_singleton. simpl.
  apply andb_true_r.
Qed.

(** Values wrapped in a pair of quotes lose the pair. *)
Lemma unquote_wrapped (q : N) (inner : jsstring) :
  q = DQUOTE ∨ q = SQUOTE → unquote (q :: inner ++ [q]) = inner.
Proof.
  intros Hq. rewrite <-(slice_inner q q inner) at 2. unfold unquote.
  change (q :: inner ++ [q]) with ((q :: inner) ++ [q]).
  rewrite !endsWith_snoc. by destruct Hq as [-> | ->].
Qed.

(** The test of the quote removal holds for the values wrapped in a pair of
    the quote [q], and for the value that is one [q] alone. *)
Lemma quote_test_spec (q : N) (value : jsstring) :
  startsWith value [q] && endsWith value [q] = true ↔
  value = [q] ∨ ∃ inner, value = q :: inner ++ [q].
Proof.
  rewrite andb_true_iff, startsWith_spec, endsWith_spec. split.
  - intros [[rest ->] [front Hfront]]. simpl in *.
    destruct rest as [|c rest _] using rev_ind; [by left|right].
    exists rest. rewrite app_comm_cons in Hfront.
    apply app_inj_tail in Hfront as [_ ->]. done.
  - intros [->|[inner ->]].
    + split; [by exists []|by exists []].
    + split; [by exists (inner ++ [q])|by exists (q :: inner)].
Qed.

(** Values that do not both start and end with the same quote are kept. *)
Lemma unquote_plain (value : jsstring) :
  (startsWith value [DQUOTE] && endsWith value [DQUOTE]
   || startsWith value [SQUOTE] && endsWith value [SQUOTE]) = false →
  unquote value = value.
Proof. unfold unquote. by intros ->. Qed.

(** The quote removal, case by case: a wrapped value loses its pair of
    quotes, a lone quote becomes the empty string, any other value is kept. *)
Lemma unquote_cases (value : jsstring) :
  (∃ q inner, (q = DQUOTE ∨ q = SQUOTE) ∧ value = q :: inner ++ [q]
              ∧ unquote value = inner)
  ∨ ((value = [DQUOTE] ∨ value = [SQUOTE]) ∧ unquote value = [])
  ∨ ((∀ q inner, q = DQUOTE ∨ q = SQUOTE → value ≠ q :: inner ++ [q])
     ∧ value ≠ [DQUOTE] ∧ value ≠ [SQUOTE] ∧ unquote value = value).
Proof.
  destruct (startsWith value [DQUOTE] && endsWith value [DQUOTE]) eqn:Ed.
  { apply quote_test_spec in Ed as [->|[inner ->]].
    - right. left. by split; [left|].
    - left. exists DQUOTE, inner. split_and!; [by left|done|].
      apply unquote_wrapped. by left. }
  destruct (startsWith value [SQUOTE] && endsWith value [SQUOTE]) eqn:Es.
  { apply quote_test_spec in Es as [->|[inner ->]].
    - right. left. by split; [right|].
    - left. exists SQUOTE, inner. split_and!; [by right|done|].
      apply unquote_wrapped. by right. }
  right. right. split_and!.
  - intros q inner [-> | ->] ->.
    + assert (startsWith (DQUOTE :: inner ++ [DQUOTE]) [DQUOTE]
              && endsWith (DQUOTE :: inner ++ [DQUOTE]) [DQUOTE] = true) as E
        by (apply quote_test_spec; eauto).
      by rewrite E in Ed.
    + assert (startsWith (SQUOTE :: inner ++ [SQUOTE]) [SQUOTE]
              && endsWith (SQUOTE :: inner ++ [SQUOTE]) [SQUOTE] = true) as E
        by (apply quote_test_spec; eauto).
      by rewrite E in Es.
  - by intros ->.
  - by intros ->.
  - apply unquote_plain. by rewrite Ed, Es.
Qed.

(** C5. [parseFrontMatter] never raises an error; a text that is not made
    of a fence line, a block of lines, a fence line and a body comes back
    whole as the content, with empty metadata; so does the text
    "no delimiters here". *)
Theorem parseFrontMatter_soft_fallback (raw : jsstring) :
  (∃ result, parseFrontMatter raw = Normal result)
  ∧ ((¬ ∃ block body,
        raw = (str "---" ++ [LF]) ++ block ++ (LF :: str "---" ++ [LF]) ++ body) →
     parseFrontMatter raw = Normal {| metadata := ∅; content := raw |})
  ∧ parseFrontMatter (str "no delimiters here")
    = Normal {| metadata := ∅; content := str "no delimiters here" |}.
Proof.
  split; [|split].
  - unfold parseFrontMatter.
    destruct (match_front_matter raw) as [[frontMatter postContent]|]; [|eauto].
    destruct (forEach_parseLine_normal (split frontMatter LF) ∅) as [metadata ->].
    simpl. eauto.
  - intros Hno. unfold parseFrontMatter.
    destruct (match_front_matter raw) as [[frontMatter postContent]|] eqn:E; [|done].
    destruct Hno. apply match_front_matter_Some in E. eauto.
  - reflexivity.
Qed.

Lemma parseFrontMatter_soft_fallback_witness :
  parseFrontMatter (str "--- a draft") =
  Normal {| metadata := ∅; content := str "--- a draft" |}.
Proof.
  apply (proj1 (proj2 (parseFrontMatter_soft_fallback (str "--- a draft")))).
  intros (block & body & H). discriminate H.
Defined.

(** C6. A line whose key is [tags] and whose value, once unquoted, stands
    between [[] and []]: the value is what [JSON.parse] makes of it, and when
    that fails, with no error raised, the pieces between the commas of the
    inside, each trimmed and freed of one quote at either end.  The document
    with [title: Hello] and [tags: [a, b]] gives the title "Hello", the tags
    "a" and "b", and the body "Body text". *)
Theorem parseLine_tags :
  (∀ (metadata : gmap jsstring json) (line : jsstring) (i : nat),
     indexOf line COLON = Some (S i) →
     trim (substring line 0 (S i)) = str "tags" →
     let value := unquote (trim (substring_from line (S i + 1))) in
     startsWith value [LBRACKET] = true →
     endsWith value [RBRACKET] = true →
     parseLine metadata line =
     Normal (<[str "tags" :=
                 match JSON_parse value with
                 | Normal tags => tags
                 | Throws _ =>
                     JArr ((λ piece, JStr (strip_quote_marks (trim piece)))
                           <$> split (slice value 1 (-1)) COMMA)
                 end]> metadata))
  ∧ parseFrontMatter
      (str "---" ++ [LF] ++ str "title: Hello" ++ [LF] ++ str "tags: [a, b]" ++ [LF]
       ++ str "---" ++ [LF] ++ str "Body text")
    = Normal {| metadata := {[ str "title" := JStr (str "Hello");
                               str "tags" := JArr [JStr (str "a"); JStr (str "b")] ]};
                content := str "Body text" |}.
Proof.
  split; [|by vm_compute].
  intros metadata line i Hcolon Hkey value Hopen Hclose.
  unfold parseLine. rewrite Hcolon, Hkey. fold value. rewrite Hopen, Hclose.
  rewrite bool_decide_eq_true_2 by done.
  unfold parse_tags, Js.try_catch, split_tags.
  by destruct (JSON_parse value) as [tags|e].
Qed.

Lemma parseLine_tags_witness :
  parseLine ∅ (str "tags: ['x', y]") =
  Normal {[ str "tags" := JArr [JStr (str "x"); JStr (str "y")] ]}.
Proof.
  exact (proj1 parseLine_tags ∅ (str "tags: ['x', y]") 3
           eq_refl eq_refl eq_refl eq_refl).
Defined.

(** C7, at the value made of one double quote: the quote removal takes it
    for a wrapped value and leaves the empty string, where the value should
    have stayed as it was; likewise for one single quote, and in a
    document. *)
Theorem unquote_lone_quote :
  unquote [DQUOTE] = []
  ∧ unquote [SQUOTE] = []
  ∧ parseFrontMatter
      (str "---" ++ [LF] ++ str "title: " ++ [DQUOTE] ++ [LF] ++ str "---" ++ [LF]
       ++ str "text")
    = Normal {| metadata := {[ str "title" := JStr [] ]}; content := str "text" |}.
Proof. repeat split; by vm_compute. Qed.

End PostLoaderFacts.

(** ** The post index *)

Module AppFacts.
Import Js App JsFacts.

(** *** The order of [sort] *)

(** [lt_str] is the lexicographic order of the code units. *)
Lemma lt_str_lexico (x y : jsstring) : lt_str x y = true ↔ lexico x y.
Proof.
  revert y. induction x as [|c x IH]; intros [|d y]; simpl; try done.
  rewrite orb_true_iff, andb_true_iff, N.ltb_lt, N.eqb_eq, IH.
  unfold lexico at 2, list_lexico; simpl. fold (@list_lexico N _).
  unfold lexico at 2, prod_lexico; simpl. done.
Qed.

Lemma sort_le_lexico (x y : jsstring) : sort_le x y ↔ ¬ lexico y x.
Proof.
  unfold sort_le. rewrite <-lt_str_lexico. by destruct (lt_str y x).
Qed.

Global Instance sort_le_total : Total sort_le.
Proof.
  intros x y. rewrite !sort_le_lexico.
  destruct (trichotomy lexico x y) as [H|[->|H]].
  - left. intros H'. by apply (irreflexivity lexico x); trans y.
  - left. apply irreflexivity, _.
  - right. intros H'. by apply (irreflexivity lexico x); trans y.
Qed.

Global Instance sort_le_trans : Transitive sort_le.
Proof.
  intros x y z. rewrite !sort_le_lexico. intros Hxy Hyz Hzx.
  destruct (trichotomy lexico x y) as [H|[->|H]]; [|done..].
  apply Hyz. by trans x.
Qed.

Global Instance sort_le_antisymm : AntiSymm (=) sort_le.
Proof.
  intros x y. rewrite !sort_le_lexico. intros Hyx Hxy.
  by destruct (trichotomy lexico x y) as [H|[->|H]].
Qed.

(** Whatever algorithm the engine sorts with, the result is the one of
    [sort]: a sorted arrangement of the same strings. *)
Lemma sort_determined (l l' : list jsstring) :
  l' ≡ₚ l → Sorted sort_le l' → l' = sort l.
Proof.
  intros Hperm Hsorted. apply (Sorted_unique sort_le); [done| |].
  - apply Sorted_merge_sort, _.
  - unfold sort. by rewrite merge_sort_Permutation.
Qed.

Lemma sort_le_strict (x y : jsstring) : sort_le x y → x ≠ y → lexico x y.
Proof.
  rewrite sort_le_lexico. intros Hyx Hne.
  by destruct (trichotomy lexico x y) as [H|[->|H]].
Qed.

(** A sorted list without repetition ascends strictly. *)
Lemma StronglySorted_strict (l : list jsstring) :
  StronglySorted sort_le l → NoDup l → StronglySorted lexico l.
Proof.
  induction 1 as [|x l Hl IH Hx]; intros Hnd; [constructor|].
  apply NoDup_cons in Hnd as [Hin Hnd]. constructor; [by apply IH|].
  rewrite Forall_forall in Hx |- *. intros y Hy.
  apply sort_le_strict; [by apply Hx|]. intros ->. done.
Qed.

(** *** The set of tags *)

Lemma Set_add_elem_of (tagSet : list jsstring) (tag x : jsstring) :
  x ∈ Set_add tagSet tag ↔ x ∈ tagSet ∨ x = tag.
Proof.
  unfold Set_add. case_decide.
  - split; [auto|]. by intros [?| ->].
  - rewrite elem_of_app, list_elem_of_singleton. done.
Qed.

Lemma Set_add_NoDup (tagSet : list jsstring) (tag : jsstring) :
  NoDup tagSet → NoDup (Set_add tagSet tag).
Proof.
  intros Hnd. unfold Set_add. case_decide; [done|].
  apply NoDup_app. split_and!; [done| |apply NoDup_singleton].
  intros x Hx ->%list_elem_of_singleton. done.
Qed.

Lemma foldl_Set_add_elem_of (l tagSet : list jsstring) (x : jsstring) :
  x ∈ foldl Set_add tagSet l ↔ x ∈ tagSet ∨ x ∈ l.
Proof.
  revert tagSet. induction l as [|tag l IH]; intros tagSet; simpl.
  - rewrite elem_of_nil. tauto.
  - rewrite IH, Set_add_elem_of, elem_of_cons. tauto.
Qed.

Lemma foldl_Set_add_NoDup (l tagSet : list jsstring) :
  NoDup tagSet → NoDup (foldl Set_add tagSet l).
Proof.
  revert tagSet. induction l as [|tag l IH]; intros tagSet Hnd; simpl; [done|].
  by apply IH, Set_add_NoDup.
Qed.

Lemma add_post_tags_elem_of (tagSet : list jsstring) (post : Post) (x : jsstring) :
  x ∈ add_post_tags tagSet post ↔ x ∈ tagSet ∨ brings post x.
Proof.
  unfold add_post_tags, brings. destruct (tags post) as [| |l].
  - split; [auto|]. by intros [?|(l & ? & ?)].
  - split; [auto|]. by intros [?|(l & ? & ?)].
  - rewrite foldl_Set_add_elem_of. split.
    + intros [?|?]; eauto.
    + intros [?|(l' & [= <-] & ?)]; auto.
Qed.

Lemma add_post_tags_NoDup (tagSet : list jsstring) (post : Post) :
  NoDup tagSet → NoDup (add_post_tags tagSet post).
Proof.
  unfold add_post_tags. destruct (tags post); [done..|]. apply foldl_Set_add_NoDup.
Qed.

Lemma foldl_add_post_tags_elem_of (posts : list Post) (tagSet : list jsstring) (x : jsstring) :
  x ∈ foldl add_post_tags tagSet posts ↔
  x ∈ tagSet ∨ ∃ post, post ∈ posts ∧ brings post x.
Proof.
  revert tagSet. induction posts as [|post posts IH]; intros tagSet; simpl.
  - split; [auto|]. intros [?|(post & Hin & _)]; [done|]. by apply elem_of_nil in Hin.
  - rewrite IH, add_post_tags_elem_of. split.
    + intros [[?|?]|(p & ? & ?)]; [by left| |].
      * right. exists post. split; [left|done].
      * right. exists p. split; [by right|done].
    + intros [?|(p & [->|?]%elem_of_cons & ?)]; [by left;left|by left;right|].
      right. eauto.
Qed.

Lemma foldl_add_post_tags_NoDup (posts : list Post) (tagSet : list jsstring) :
  NoDup tagSet → NoDup (foldl add_post_tags tagSet posts).
Proof.
  revert tagSet. induction posts as [|post posts IH]; intros tagSet Hnd; simpl; [done|].
  by apply IH, add_post_tags_NoDup.
Qed.

(** C4. The tags [extractTags] stores ascend strictly in the order of the
    code units, hold no tag twice, and are the strings that stand in the
    [tags] array of some post; a post whose [tags] member is absent or is
    not an array brings none. *)
Theorem extractTags_sorted_set (posts : list Post) :
  (∀ st, allPosts st = PostArray posts →
         extractTags st = (Normal (), set_allTags (tags_of posts) st))
  ∧ StronglySorted lexico (tags_of posts)
  ∧ NoDup (tags_of posts)
  ∧ (∀ tag, tag ∈ tags_of posts ↔
            ∃ post l, post ∈ posts ∧ tags post = TagsArray l ∧ tag ∈ l).
Proof.
  assert (NoDup (tags_of posts)) as Hnd.
  { unfold tags_of, sort. rewrite merge_sort_Permutation.
    apply foldl_add_post_tags_NoDup, NoDup_nil_2. }
  split_and!; [|apply StronglySorted_strict| |].
  - intros st Hst. unfold extractTags. cbv [mbind M_bind get]. by rewrite Hst.
  - apply StronglySorted_merge_sort; apply _.
  - done.
  - done.
  - intros tag. unfold tags_of, sort. rewrite merge_sort_Permutation.
    rewrite foldl_add_post_tags_elem_of, elem_of_nil. unfold brings.
    split.
    + intros [[]|(post & ? & l & ? & ?)]. eauto.
    + intros (post & l & ? & ? & ?). right. eauto.
Qed.

Lemma extractTags_sorted_set_witness :
  extractTags (set_allPosts (PostArray Sample.posts) initial) =
  (Normal (), set_allTags [str "Web"; str "css"; str "js"; str "web"]
                (set_allPosts (PostArray Sample.posts) initial)).
Proof. by apply (proj1 (extractTags_sorted_set Sample.posts)). Defined.

(** *** The filter *)

Lemma has_tag_spec (tag : jsstring) (post : Post) :
  has_tag tag post ↔ ∃ l, tags post = TagsArray l ∧ tag ∈ l.
Proof.
  unfold has_tag. destruct (tags post) as [| |l].
  - split; [done|]. by intros (l & ? & ?).
  - split; [done|]. by intros (l & ? & ?).
  - rewrite bool_decide_spec. split; [eauto|]. by intros (l' & [= <-] & ?).
Qed.

Section FilterFacts.

Variable toLowerCase : jsstring → jsstring.

(** A string holds [q] when [q] stands somewhere inside it. *)
Local Abbreviation holds s q := (∃ before after : jsstring, s = before ++ q ++ after).

Lemma matches_query_spec (query : jsstring) (post : Post) :
  matches_query toLowerCase query post ↔
  holds (toLowerCase (title post)) query
  ∨ holds (toLowerCase (excerpt post)) query
  ∨ ∃ l tag, tags post = TagsArray l ∧ tag ∈ l ∧ holds (toLowerCase tag) query.
Proof.
  unfold matches_query.
  rewrite !orb_True, !Is_true_true, !includes_spec.
  assert (match tags post with
          | TagsArray l => existsb (λ tag, includes (toLowerCase tag) query) l
          | _ => false
          end = true ↔
          ∃ l tag, tags post = TagsArray l ∧ tag ∈ l ∧ holds (toLowerCase tag) query)
    as ->; [|tauto].
  destruct (tags post) as [| |l].
  - split; [done|]. by intros (l & tag & ? & _).
  - split; [done|]. by intros (l & tag & ? & _).
  - rewrite existsb_exists. split.
    + intros (tag & Hin%list_elem_of_In & H%includes_spec). eauto 6.
    + intros (l' & tag & [= <-] & Hin%list_elem_of_In & H%includes_spec). eauto.
Qed.

(** [filterPosts] on an array of posts: it returns an array, and leaves the
    state as it was. *)
Lemma filterPosts_array (st : state) (posts : list Post) (searchQuery : jsstring) :
  allPosts st = PostArray posts →
  filterPosts toLowerCase searchQuery st =
  (Normal (PostArray
     (let filtered :=
        match activeTag st with
        | Some tag => if truthy (Some tag) then filter (has_tag tag) posts else posts
        | None => posts
        end in
      if truthy (Some searchQuery)
      then filter (matches_query toLowerCase (toLowerCase searchQuery)) filtered
      else filtered)), st).
Proof.
  intros Hst. unfold filterPosts. cbv [mbind M_bind mret M_ret get]. rewrite Hst.
  destruct (activeTag st) as [[|c tag]|], searchQuery as [|d q]; reflexivity.
Qed.

(** C2. On a catalog of posts, with the active tag the page can have (none,
    or a non-empty string), [filterPosts] returns a subsequence of the posts
    in their order; a post is in it exactly when it passes both steps: its
    tags hold the active tag, if there is one, as an equal string; and, if
    the query is not empty, its lowercased title or excerpt or one of its
    lowercased tags holds the lowercased query. *)
Theorem filterPosts_spec (st : state) (posts : list Post) (searchQuery : jsstring) :
  allPosts st = PostArray posts →
  activeTag st ≠ Some [] →
  ∃ visible,
    filterPosts toLowerCase searchQuery st = (Normal (PostArray visible), st)
    ∧ sublist visible posts
    ∧ ∀ post, post ∈ visible ↔
        post ∈ posts
        ∧ (∀ T, activeTag st = Some T → ∃ l, tags post = TagsArray l ∧ T ∈ l)
        ∧ (searchQuery ≠ [] →
           holds (toLowerCase (title post)) (toLowerCase searchQuery)
           ∨ holds (toLowerCase (excerpt post)) (toLowerCase searchQuery)
           ∨ ∃ l tag, tags post = TagsArray l ∧ tag ∈ l
                      ∧ holds (toLowerCase tag) (toLowerCase searchQuery)).
Proof.
  intros Hst Hactive. eexists. split; [by apply filterPosts_array|].
  cbv zeta.
  set (filtered := match activeTag st with
                   | Some tag => if truthy (Some tag) then filter (has_tag tag) posts
                                 else posts
                   | None => posts
                   end).
  assert (sublist filtered posts
          ∧ ∀ post, post ∈ filtered ↔
              post ∈ posts
              ∧ (∀ T, activeTag st = Some T → ∃ l, tags post = TagsArray l ∧ T ∈ l))
    as [Hsub Hin].
  { subst filtered. destruct (activeTag st) as [[|c tag]|]; [done| |].
    - simpl. split; [apply sublist_filter|]. intros post.
      rewrite list_elem_of_filter, has_tag_spec. split.
      + intros [? ?]. split; [done|]. by intros T [= <-].
      + intros [? H]. split; [by apply H|done].
    - split; [done|]. intros post. split; [|by intros [? _]].
      intros ?. split; [done|]. by intros T [=]. }
  destruct searchQuery as [|d q].
  - simpl. split; [done|]. intros post. rewrite Hin. split.
    + intros [? ?]. split_and!; done.
    + intros (? & ? & _). done.
  - change (truthy (Some (d :: q))) with true. cbv iota. split.
    + etrans; [apply sublist_filter|done].
    + intros post. rewrite list_elem_of_filter, matches_query_spec, Hin. split.
      * intros (? & ? & ?). split_and!; done.
      * intros (? & ? & H). split_and!; [by apply H|done..].
Qed.

(** *** Rendering and tag clicks *)

Lemma select_tag_truthy (active : option jsstring) (selectedTag tag : jsstring) :
  select_tag active selectedTag = Some tag → truthy (Some tag) = true.
Proof.
  unfold select_tag. destruct (_ || _); [done|].
  destruct (truthy (Some selectedTag)) eqn:E; [|done]. by intros [= <-].
Qed.

Lemma select_tag_same (selectedTag : jsstring) :
  select_tag (Some selectedTag) selectedTag = None.
Proof. unfold select_tag. by rewrite bool_decide_eq_true_2. Qed.

Lemma select_tag_all (active : option jsstring) : select_tag active [] = None.
Proof. unfold select_tag. by destruct (_ || _). Qed.

Lemma select_tag_other (active : option jsstring) (selectedTag : jsstring) :
  active ≠ Some selectedTag → selectedTag ≠ [] →
  select_tag active selectedTag = Some selectedTag.
Proof.
  intros Hne Hnil. unfold select_tag.
  rewrite (bool_decide_eq_false_2 _ Hne), (bool_decide_eq_false_2 _ Hnil).
  by destruct selectedTag.
Qed.

Lemma renderTags_run (st : state) :
  ∃ st', renderTags st = (Normal (), st')
         ∧ allPosts st' = allPosts st ∧ allTags st' = allTags st
         ∧ activeTag st' = activeTag st ∧ postsList st' = postsList st
         ∧ loadingEl_failure st' = loadingEl_failure st
         ∧ searchInput_value st' = searchInput_value st.
Proof.
  unfold renderTags. cbv [mbind M_bind get modify].
  destruct (allTags st) eqn:E; eexists; (split; [reflexivity|]); by rewrite <-?E.
Qed.

(** The article of a post is made unless its file name is ill formed. *)
Lemma article_outcome (post : Post) :
  article post = if isWellFormed (file post) then Normal post else Throws URIError.
Proof.
  unfold article. pose proof (encodeURIComponent_outcome (file post)) as H.
  destruct (isWellFormed (file post)).
  - by destruct H as [href ->].
  - by rewrite H.
Qed.

Lemma mapM_article (posts : list Post) :
  mapM article posts = if decide (encodable posts) then Normal posts else Throws URIError.
Proof.
  unfold encodable. induction posts as [|post posts IH]; [done|].
  change (mapM article (post :: posts))
    with (y ← article post; k ← mapM article posts; mret (y :: k)).
  rewrite article_outcome, IH. clear IH.
  destruct (decide (Forall _ (post :: posts))) as [[E H]%Forall_cons|H].
  - rewrite E. by rewrite decide_True.
  - destruct (isWellFormed (file post)) eqn:E; [|done].
    destruct (decide (Forall _ posts)) as [H'|H']; [|done].
    destruct H. by constructor.
Qed.

(** [renderPosts] on an array of posts: an empty array shows the mark for
    "no posts"; otherwise the mark is hidden, and the list is written
    unless a file name cannot be encoded. *)
Lemma renderPosts_array (posts : list Post) (st : state) :
  renderPosts (PostArray posts) st =
  match posts with
  | [] => (Normal (), set_noPostsEl DisplayBlock (set_postsList [] st))
  | _ :: _ =>
      if decide (encodable posts)
      then (Normal (), set_postsList posts (set_noPostsEl DisplayNone st))
      else (Throws URIError, set_noPostsEl DisplayNone st)
  end.
Proof.
  destruct posts as [|post posts]; [done|].
  unfold renderPosts, Array_map, lift. cbv [mbind M_bind modify length_is_zero mret M_ret].
  rewrite mapM_article. by destruct (decide _).
Qed.

(** A click on a tag button of a loaded page: the new active tag, and the
    posts [filterPosts] gives for the empty query, which are listed unless
    one of their file names cannot be encoded. *)
Lemma handleTagClick_run (st : state) (posts : list Post) (selectedTag : jsstring) :
  allPosts st = PostArray posts →
  ∃ o st', handleTagClick toLowerCase selectedTag st = (o, st')
    ∧ activeTag st' = select_tag (activeTag st) selectedTag
    ∧ allPosts st' = PostArray posts
    ∧ allTags st' = allTags st
    ∧ searchInput_value st' = searchInput_value st
    ∧ let tagged := match select_tag (activeTag st) selectedTag with
                    | Some tag => filter (has_tag tag) posts
                    | None => posts
                    end in
      filterPosts toLowerCase [] st' = (Normal (PostArray tagged), st')
      ∧ (encodable tagged → o = Normal () ∧ postsList st' = tagged)
      ∧ (¬ encodable tagged → o = Throws URIError ∧ postsList st' = postsList st).
Proof.
  intros Hst. unfold handleTagClick. cbv [mbind M_bind get modify].
  set (st1 := set_activeTag (select_tag (activeTag st) selectedTag) st).
  destruct (renderTags_run st1) as (st2 & -> & Hposts & Htags & Hactive & Hlist & _ & Hsearch).
  assert (allPosts st2 = PostArray posts) as Hst2 by by rewrite Hposts.
  rewrite (filterPosts_array st2 posts [] Hst2). cbv zeta.
  change (truthy (Some [])) with false. cbv iota.
  set (visible := match activeTag st2 with
                  | Some tag => if truthy (Some tag) then filter (has_tag tag) posts
                                else posts
                  | None => posts
                  end).
  assert (visible = match select_tag (activeTag st) selectedTag with
                    | Some tag => filter (has_tag tag) posts
                    | None => posts
                    end) as Hvisible.
  { subst visible. rewrite Hactive. unfold st1. simpl activeTag.
    destruct (select_tag (activeTag st) selectedTag) as [tag|] eqn:E; [|done].
    by rewrite (select_tag_truthy _ _ _ E). }
  rewrite <-Hvisible. clearbody visible.
  assert (∀ st3, allPosts st3 = PostArray posts → activeTag st3 = activeTag st2 →
                 filterPosts toLowerCase [] st3 = (Normal (PostArray visible), st3))
    as Hfilter.
  { intros st3 H3 Ha. rewrite (filterPosts_array st3 posts [] H3). cbv zeta.
    change (truthy (Some [])) with false. cbv iota. rewrite Hvisible, Ha, Hactive.
    unfold st1. simpl activeTag.
    destruct (select_tag (activeTag st) selectedTag) as [tag|] eqn:E; [|done].
    by rewrite (select_tag_truthy _ _ _ E). }
  rewrite renderPosts_array.
  destruct visible as [|post visible].
  { eexists _, _. split; [reflexivity|]. simpl.
    split_and!;
      [by rewrite Hactive|done|by rewrite Htags|by rewrite Hsearch|by apply Hfilter|done|].
    intros []. constructor. }
  destruct (decide (encodable (post :: visible))) as [He|He]; eexists _, _;
    (split; [reflexivity|]); simpl;
    (split_and!;
       [by rewrite Hactive|done|by rewrite Htags|by rewrite Hsearch|by apply Hfilter|..]);
    done.
Qed.

(** C3, amended. A click on a tag button stores the new active tag and
    calls [filterPosts] without a query, whatever text the search input
    holds.  If the file names of the posts that carry the new active tag
    (of all posts when there is none) can be encoded, these posts are
    listed; if one cannot, the click throws a [URIError] before the list is
    written, and the list stays what it was. *)
Theorem handleTagClick_drops_search
    (st : state) (posts : list Post) (selectedTag text : jsstring) :
  allPosts st = PostArray posts →
  let click := handleTagClick toLowerCase selectedTag (set_searchInput_value text st) in
  let after := click.2 in
  let tagged := match select_tag (activeTag st) selectedTag with
                | Some tag => filter (has_tag tag) posts
                | None => posts
                end in
  searchInput_value after = text
  ∧ activeTag after = select_tag (activeTag st) selectedTag
  ∧ (filterPosts toLowerCase [] after).1 = Normal (PostArray tagged)
  ∧ (encodable tagged → click.1 = Normal () ∧ postsList after = tagged)
  ∧ (¬ encodable tagged → click.1 = Throws URIError ∧ postsList after = postsList st).
Proof.
  intros Hst click after tagged. subst click after tagged.
  destruct (handleTagClick_run (set_searchInput_value text st) posts selectedTag Hst)
    as (o & st' & -> & Htag & _ & _ & Hsearch & Hfilter & Hok & Hthrow).
  simpl in *. split_and!; [done..|by rewrite Hfilter|done|done].
Qed.

(** C10, amended. On a loaded page, a click on the active tag clears it, and
    so does a click on the button "all", whose tag is the empty string; two
    clicks in a row on a tag that was not the active one end with no active
    tag.  Each time all the posts are listed again if their file names can
    be encoded; if one cannot, the click that clears the tag throws and the
    list stays what it was. *)
Theorem handleTagClick_toggle (st : state) (posts : list Post) (selectedTag : jsstring) :
  allPosts st = PostArray posts →
  (activeTag st = Some selectedTag →
   let after := exec (handleTagClick toLowerCase selectedTag) st in
   activeTag after = None ∧ (encodable posts → postsList after = posts))
  ∧ (let after := exec (handleTagClick toLowerCase []) st in
     activeTag after = None ∧ (encodable posts → postsList after = posts))
  ∧ (activeTag st ≠ Some selectedTag →
     let after := exec (handleTagClick toLowerCase selectedTag)
                       (exec (handleTagClick toLowerCase selectedTag) st) in
     activeTag after = None ∧ (encodable posts → postsList after = posts))
  ∧ (¬ encodable posts →
     ∀ clicked, select_tag (activeTag st) clicked = None →
       handleTagClick toLowerCase clicked st
       = (Throws URIError, exec (handleTagClick toLowerCase clicked) st)
       ∧ postsList (exec (handleTagClick toLowerCase clicked) st) = postsList st).
Proof.
  intros Hst. split_and!.
  - intros Hactive after. subst after. unfold exec.
    destruct (handleTagClick_run st posts selectedTag Hst)
      as (o & st' & -> & Htag & _ & _ & _ & _ & Hok & _).
    rewrite Hactive, select_tag_same in Htag, Hok. simpl.
    split; [done|]. intros He. by apply Hok.
  - intros after. subst after. unfold exec.
    destruct (handleTagClick_run st posts [] Hst)
      as (o & st' & -> & Htag & _ & _ & _ & _ & Hok & _).
    rewrite select_tag_all in Htag, Hok. simpl.
    split; [done|]. intros He. by apply Hok.
  - intros Hactive after. subst after. unfold exec.
    destruct (handleTagClick_run st posts selectedTag Hst)
      as (o1 & st1 & -> & Htag1 & Hst1 & _).
    cbn [snd].
    destruct (handleTagClick_run st1 posts selectedTag Hst1)
      as (o2 & st2 & -> & Htag2 & _ & _ & _ & _ & Hok & _).
    assert (select_tag (activeTag st1) selectedTag = None) as E.
    { destruct (decide (selectedTag = [])) as [->|Hnil].
      - apply select_tag_all.
      - rewrite Htag1, (select_tag_other (activeTag st)) by done.
        apply select_tag_same. }
    rewrite E in Htag2, Hok. simpl.
    split; [done|]. intros He. by apply Hok.
  - intros He clicked Hclear. unfold exec.
    destruct (handleTagClick_run st posts clicked Hst)
      as (o & st' & -> & _ & _ & _ & _ & _ & _ & Hthrow).
    rewrite Hclear in Hthrow. by destruct (Hthrow He) as [-> Hlist].
Qed.

(** The active tag a click stores is never the empty string. *)
Lemma handleTagClick_activeTag (st : state) (posts : list Post) (selectedTag : jsstring) :
  allPosts st = PostArray posts →
  activeTag (exec (handleTagClick toLowerCase selectedTag) st) ≠ Some [].
Proof.
  intros Hst. unfold exec.
  destruct (handleTagClick_run st posts selectedTag Hst) as (o & st' & -> & Htag & _).
  simpl. rewrite Htag. intros E. by apply select_tag_truthy in E.
Qed.

End FilterFacts.

Lemma handleTagClick_drops_search_witness :
  let searched := exec (updateSearchResults lower_latin (str "hello")) Sample.loaded in
  let click := handleTagClick lower_latin (str "css")
                 (set_searchInput_value (str "hello") searched) in
  click.1 = Normal () ∧ postsList click.2 = [Sample.styles].
Proof.
  apply (handleTagClick_drops_search lower_latin
           (exec (updateSearchResults lower_latin (str "hello")) Sample.loaded)
           Sample.posts (str "css") (str "hello") eq_refl).
  by vm_compute; repeat constructor.
Defined.

(** C3 as stated fails when a post that carries the tag has a file name
    that cannot be encoded: the click throws, and the list that stays is
    the result of the search made before. *)
Lemma handleTagClick_keeps_search_result :
  let page := exec (loadPosts (Body (PostArray [Sample.hello; Sample.broken]))) initial in
  let searched := exec (updateSearchResults lower_latin (str "hello")) page in
  let click := handleTagClick lower_latin (str "js")
                 (set_searchInput_value (str "hello") searched) in
  postsList searched = [Sample.hello]
  ∧ click.1 = Throws URIError
  ∧ activeTag click.2 = Some (str "js")
  ∧ (filterPosts lower_latin [] click.2).1
    = Normal (PostArray [Sample.hello; Sample.broken])
  ∧ postsList click.2 = [Sample.hello]
  ∧ postsList click.2 ≠ [Sample.hello; Sample.broken].
Proof. by vm_compute. Qed.

Lemma handleTagClick_toggle_witness :
  let once := exec (handleTagClick lower_latin (str "css")) Sample.loaded in
  let twice := exec (handleTagClick lower_latin (str "css")) once in
  activeTag twice = None ∧ postsList twice = Sample.posts.
Proof.
  destruct (proj1 (proj2 (proj2 (handleTagClick_toggle lower_latin Sample.loaded
                                   Sample.posts (str "css") eq_refl))))
    as [Htag Hlist]; [discriminate|].
  split; [exact Htag|]. apply Hlist. repeat constructor.
Defined.

(** C10 as stated fails when the tag clicked twice is the active one: the
    first click clears it, the second selects it again, and the list is the
    filtered one. *)
Lemma handleTagClick_twice_on_active :
  let st := exec (handleTagClick lower_latin (str "css")) Sample.loaded in
  let after := exec (handleTagClick lower_latin (str "css"))
                    (exec (handleTagClick lower_latin (str "css")) st) in
  activeTag st = Some (str "css")
  ∧ activeTag after = Some (str "css")
  ∧ postsList after = [Sample.styles]
  ∧ postsList after ≠ Sample.posts.
Proof. by vm_compute. Qed.

(** *** Loading *)

(** The markup [renderTags] builds piece by piece is that of [tag_bar]. *)
Lemma foldl_tag_button (active : option jsstring) (tags : list jsstring) (html : jsstring) :
  foldl (λ tagsHTML tag, tagsHTML ++ tag_button active tag) html tags
  = html ++ mjoin (tag_button active <$> tags).
Proof.
  revert html. induction tags as [|tag tags IH]; intros html; simpl.
  - by rewrite app_nil_r.
  - by rewrite IH, <-app_assoc.
Qed.

Lemma renderTags_eq (st : state) :
  renderTags st =
  (Normal (),
   if decide (allTags st = []) then set_tagsContainer_display DisplayNone st
   else set_tagsContainer (tag_bar (activeTag st) (allTags st)) st).
Proof.
  unfold renderTags. cbv [mbind M_bind get modify].
  destruct (allTags st) as [|tag tags] eqn:E.
  - by rewrite decide_True.
  - rewrite decide_False by done. by rewrite foldl_tag_button.
Qed.

Lemma renderTags_fields (st : state) :
  ∃ st', renderTags st = (Normal (), st')
         ∧ tagsContainer st' =
           (if decide (allTags st = []) then tagsContainer st
            else tag_bar (activeTag st) (allTags st))
         ∧ tagsContainer_display st' =
           (if decide (allTags st = []) then DisplayNone else tagsContainer_display st)
         ∧ allPosts st' = allPosts st ∧ allTags st' = allTags st
         ∧ activeTag st' = activeTag st ∧ postsList st' = postsList st
         ∧ noPostsEl st' = noPostsEl st
         ∧ loadingEl_failure st' = loadingEl_failure st
         ∧ loadingEl_display st' = loadingEl_display st.
Proof.
  eexists. split; [apply renderTags_eq|].
  by destruct (decide (allTags st = [])).
Qed.

(** The load of an array of posts, step by step: the tags are drawn, then
    the posts, and the load fails if a file name cannot be encoded. *)
Lemma loadPosts_array (st : state) (posts : list Post) :
  let st2 := exec renderTags
               (set_allTags (tags_of posts) (set_allPosts (PostArray posts) st)) in
  loadPosts (Body (PostArray posts)) st =
  (Normal (),
   match posts with
   | [] =>
       set_noPostsEl DisplayBlock
         (set_loadingEl_display DisplayNone
            (set_noPostsEl DisplayBlock (set_postsList [] st2)))
   | _ :: _ =>
       if decide (encodable posts)
       then set_loadingEl_display DisplayNone
              (set_postsList posts (set_noPostsEl DisplayNone st2))
       else set_loadingEl_failure true (set_noPostsEl DisplayNone st2)
   end).
Proof.
  cbv zeta. unfold exec.
  destruct (renderTags_fields
              (set_allTags (tags_of posts) (set_allPosts (PostArray posts) st)))
    as (st2 & Hrun & _ & _ & Hposts & _).
  unfold loadPosts, App.try_catch, extractTags. cbv [mbind M_bind get modify].
  cbn [allPosts set_allPosts]. rewrite Hrun. cbn [snd].
  cbn [allPosts set_allPosts set_allTags] in Hposts. rewrite Hposts, renderPosts_array.
  destruct posts as [|post posts].
  { cbn [allPosts set_noPostsEl set_postsList set_loadingEl_display]. by rewrite Hposts. }
  destruct (decide (encodable (post :: posts))); [|done].
  cbn [allPosts set_noPostsEl set_postsList set_loadingEl_display]. by rewrite Hposts.
Qed.

(** C1 as stated fails on a body that is JSON but not an array: the failure
    is shown, and the post array is no longer what it was. *)
Lemma loadPosts_not_atomic :
  let after := exec (loadPosts (Body (NotAnArray OtherValue))) initial in
  loadingEl_failure after = true
  ∧ allPosts initial = PostArray []
  ∧ allPosts after = NotAnArray OtherValue
  ∧ allPosts after ≠ allPosts initial.
Proof. by vm_compute. Qed.

Lemma filterPosts_spec_witness :
  ∃ visible,
    filterPosts lower_latin (str "WEB") Sample.loaded
    = (Normal (PostArray visible), Sample.loaded)
    ∧ sublist visible Sample.posts
    ∧ ∀ post, post ∈ visible ↔
        post ∈ Sample.posts
        ∧ (∀ T, activeTag Sample.loaded = Some T → ∃ l, tags post = TagsArray l ∧ T ∈ l)
        ∧ (str "WEB" ≠ [] →
           (∃ before after,
              lower_latin (title post) = before ++ lower_latin (str "WEB") ++ after)
           ∨ (∃ before after,
                lower_latin (excerpt post) = before ++ lower_latin (str "WEB") ++ after)
           ∨ ∃ l tag, tags post = TagsArray l ∧ tag ∈ l
                      ∧ ∃ before after,
                          lower_latin tag = before ++ lower_latin (str "WEB") ++ after).
Proof.
  apply (filterPosts_spec lower_latin Sample.loaded Sample.posts (str "WEB")).
  - reflexivity.
  - discriminate.
Defined.

End AppFacts.

(** ** [loadPosts] on any index *)

Module IndexFacts.
Import Js JsFacts Index.

(** The loop of [extractTags] throws on the first [null]; without one it
    gathers the tags of the arrays of strings. *)
Lemma forEach_add_post_tags (posts : list element) (tagSet : list jsstring) :
  forEach add_post_tags tagSet posts =
  if decide (ENull ∈ posts) then Throws TypeError
  else Normal (foldl (λ tagSet post, foldl App.Set_add tagSet (brought post))
                 tagSet posts).
Proof.
  revert tagSet. induction posts as [|post posts IH]; intros tagSet.
  - rewrite decide_False; [done|]. apply not_elem_of_nil.
  - destruct post as [|r].
    + rewrite decide_True by left. reflexivity.
    + assert (add_post_tags tagSet (ERecord r)
              = Normal (foldl App.Set_add tagSet (brought (ERecord r)))) as E.
      { unfold add_post_tags, brought. destruct (tags r) as [| |[]|[]|s|l]; try done.
        by destruct s. }
      cbn [forEach]. rewrite E. cbn [mbind outcome_bind]. rewrite IH.
      destruct (decide (ENull ∈ posts)) as [H|H].
      * rewrite decide_True; [done|by right].
      * rewrite decide_False; [done|]. by intros [?|?]%elem_of_cons.
Qed.

(** The article of an element is made unless the element is [unrenderable]. *)
Lemma element_article_outcome (post : element) :
  if unrenderable post then ∃ e, article post = Throws e
  else article post = Normal post.
Proof.
  destruct post as [|r]; [simpl; eauto|].
  unfold article, unrenderable, tagsHTML, href.
  destruct (tags r) as [| |b|z|[|c s]|l]; cbn [mbind outcome_bind]; eauto;
    (destruct (file r) as [| |b'|z'|s'|l']; try done;
     match goal with
     | |- context [encodeURIComponent ?t] =>
         pose proof (encodeURIComponent_outcome t) as H;
         destruct (isWellFormed t); cbn [negb];
         [destruct H as [encoded ->]; done|rewrite H; eauto]
     end).
Qed.

Lemma mapM_element_article (posts : list element) :
  if existsb unrenderable posts then ∃ e, mapM article posts = Throws e
  else mapM article posts = Normal posts.
Proof.
  induction posts as [|post posts IH]; [done|].
  change (mapM article (post :: posts))
    with (y ← article post; k ← mapM article posts; mret (y :: k)).
  cbn [existsb]. pose proof (element_article_outcome post) as H.
  destruct (unrenderable post); cbn [orb].
  - destruct H as [e ->]. eauto.
  - rewrite H. cbn [mbind outcome_bind].
    destruct (existsb unrenderable posts).
    + destruct IH as [e ->]. eauto.
    + by rewrite IH.
Qed.

Lemma index_renderTags_eq (st : state) :
  renderTags st =
  (Normal (),
   if decide (allTags st = []) then set_tagsContainer_display App.DisplayNone st
   else set_tagsContainer (App.tag_bar (activeTag st) (allTags st)) st).
Proof.
  unfold renderTags. cbv [mbind M_bind get modify].
  destruct (allTags st) as [|tag tags] eqn:E.
  - by rewrite decide_True.
  - rewrite decide_False by done. by rewrite AppFacts.foldl_tag_button.
Qed.

(** [renderPosts] on an array. *)
Lemma index_renderPosts_array (posts : list element) (st : state) :
  match posts with
  | [] =>
      renderPosts (JsonArray posts) st
      = (Normal (), set_noPostsEl App.DisplayBlock (set_postsList [] st))
  | _ :: _ =>
      if existsb unrenderable posts
      then ∃ e, renderPosts (JsonArray posts) st
                = (Throws e, set_noPostsEl App.DisplayNone st)
      else renderPosts (JsonArray posts) st
           = (Normal (), set_postsList posts (set_noPostsEl App.DisplayNone st))
  end.
Proof.
  destruct posts as [|post posts]; [done|].
  unfold renderPosts, Array_map, lift.
  cbv [mbind M_bind modify length_is_zero mret M_ret].
  pose proof (mapM_element_article (post :: posts)) as H.
  destruct (existsb unrenderable (post :: posts)).
  - destruct H as [e ->]. eauto.
  - by rewrite H.
Qed.

(** The load of an array, step by step. *)
Lemma index_loadPosts_array (st : state) (posts : list element) :
  let st1 := set_allPosts (JsonArray posts) st in
  let st2 := exec renderTags (set_allTags (tags_of posts) st1) in
  loadPosts (Body (JsonArray posts)) st =
  (Normal (),
   if decide (ENull ∈ posts) then set_loadingEl_failure true st1
   else match posts with
        | [] =>
            set_noPostsEl App.DisplayBlock
              (set_loadingEl_display App.DisplayNone
                 (set_noPostsEl App.DisplayBlock (set_postsList [] st2)))
        | _ :: _ =>
            if existsb unrenderable posts
            then set_loadingEl_failure true (set_noPostsEl App.DisplayNone st2)
            else set_loadingEl_display App.DisplayNone
                   (set_postsList posts (set_noPostsEl App.DisplayNone st2))
        end).
Proof.
  cbv zeta. unfold exec, loadPosts, try_catch, extractTags, lift, tags_of.
  cbv [mbind M_bind get modify]. cbn [allPosts set_allPosts].
  rewrite forEach_add_post_tags.
  destruct (decide (ENull ∈ posts)) as [Hnull|Hnull]; [done|].
  rewrite index_renderTags_eq. cbn [snd].
  set (st2 := if decide (allTags _ = []) then _ else _).
  assert (allPosts st2 = JsonArray posts) as Hposts
    by (subst st2; by destruct (decide _)).
  rewrite Hposts. pose proof (index_renderPosts_array posts st2) as H.
  destruct posts as [|post posts].
  { rewrite H. cbn [allPosts set_noPostsEl set_postsList set_loadingEl_display].
    by rewrite Hposts. }
  destruct (existsb unrenderable (post :: posts)).
  - by destruct H as [e ->].
  - rewrite H. cbn [allPosts set_noPostsEl set_postsList set_loadingEl_display].
    by rewrite Hposts.
Qed.

(** C1, amended. [loadPosts] itself never throws.  When the index cannot be
    fetched, the response is not ok, or the body is not JSON, it shows the
    failure and changes nothing else.  A body that is JSON is stored in the
    post array as parsed, before any use of it, and stays there.  For a
    value that is not an array, and for an array that holds [null], the
    failure is shown and the tags, the tag bar and the list are as they
    were.  For any other array the tags are extracted and the tag bar is
    drawn; then, if a record cannot be rendered (its tags are a non-empty
    string, or its file name cannot be encoded), the failure is shown and
    the list is as it was; otherwise the array is loaded whole, an article
    listed for every element and the loading mark hidden. *)
Theorem loadPosts_outcome (st : state) (r : response) :
  (loadPosts r st).1 = Normal ()
  ∧ let after := exec (loadPosts r) st in
    match r with
    | Unreachable | NotOk | InvalidBody => after = set_loadingEl_failure true st
    | Body v =>
        allPosts after = v
        ∧ activeTag after = activeTag st
        ∧ match v with
          | NotAnArray _ => after = set_loadingEl_failure true (set_allPosts v st)
          | JsonArray posts =>
              if decide (ENull ∈ posts)
              then after = set_loadingEl_failure true (set_allPosts v st)
              else
                allTags after = tags_of posts
                ∧ tagsContainer after =
                  (if decide (tags_of posts = []) then tagsContainer st
                   else App.tag_bar (activeTag st) (tags_of posts))
                ∧ tagsContainer_display after =
                  (if decide (tags_of posts = []) then App.DisplayNone
                   else tagsContainer_display st)
                ∧ noPostsEl after =
                  (if decide (posts = []) then App.DisplayBlock else App.DisplayNone)
                ∧ if existsb unrenderable posts
                  then postsList after = postsList st
                       ∧ loadingEl_display after = loadingEl_display st
                       ∧ loadingEl_failure after = true
                  else postsList after = posts
                       ∧ loadingEl_display after = App.DisplayNone
                       ∧ loadingEl_failure after = loadingEl_failure st
          end
    end.
Proof.
  destruct r as [| | |[posts|v]]; try done.
  unfold exec. rewrite index_loadPosts_array. cbn [fst snd]. split; [done|].
  destruct (decide (ENull ∈ posts)) as [Hnull|Hnull]; [done|].
  unfold exec. rewrite index_renderTags_eq. cbn [snd allTags set_allTags].
  destruct posts as [|post posts].
  { destruct (decide (tags_of [] = [])); by rewrite decide_True. }
  rewrite (decide_False (P := post :: posts = [])) by done.
  destruct (existsb unrenderable (post :: posts));
    by destruct (decide (tags_of (post :: posts) = [])).
Qed.

(** *** The post records of [App] among the elements *)

Lemma tags_of_of_post (posts : list App.Post) :
  tags_of (of_post <$> posts) = App.tags_of posts.
Proof.
  unfold tags_of, App.tags_of. f_equal.
  generalize (@nil jsstring). induction posts as [|post posts IH]; intros tagSet; [done|].
  cbn [fmap list_fmap foldl]. rewrite <-IH. f_equal.
  unfold App.add_post_tags, brought, of_post. cbn [tags].
  by destruct (App.tags post).
Qed.

Lemma unrenderable_of_post (posts : list App.Post) :
  existsb unrenderable (of_post <$> posts) = false ↔ App.encodable posts.
Proof.
  unfold App.encodable. induction posts as [|post posts IH].
  - split; [constructor|done].
  - cbn [fmap list_fmap existsb]. rewrite orb_false_iff, IH, Forall_cons.
    assert (unrenderable (of_post post) = negb (isWellFormed (App.file post))) as ->.
    { unfold unrenderable, of_post. cbn [tags file]. by destruct (App.tags post). }
    by rewrite negb_false_iff.
Qed.

Lemma renderTags_of_state (st : App.state) :
  exec renderTags (of_state st) = of_state (App.exec App.renderTags st).
Proof.
  unfold exec, App.exec. rewrite index_renderTags_eq, AppFacts.renderTags_eq. cbn [snd].
  cbn [allTags of_state]. by destruct (decide (App.allTags st = [])).
Qed.

(** On an array of post records, and on a value that is not an array, the
    load is the one module [App] describes. *)
Lemma loadPosts_of_state (st : App.state) (r : App.response) :
  exec (loadPosts (of_response r)) (of_state st)
  = of_state (App.exec (App.loadPosts r) st).
Proof.
  destruct r as [| | |[posts|v]]; try done.
  unfold exec, App.exec. cbn [of_response of_index].
  rewrite index_loadPosts_array, AppFacts.loadPosts_array. cbn [snd].
  rewrite decide_False
    by (rewrite list_elem_of_fmap; by intros (post & ? & _)).
  rewrite tags_of_of_post.
  change (set_allTags (App.tags_of posts) (set_allPosts (JsonArray (of_post <$> posts))
                                             (of_state st)))
    with (of_state (App.set_allTags (App.tags_of posts)
                      (App.set_allPosts (App.PostArray posts) st))).
  rewrite renderTags_of_state.
  pose proof (unrenderable_of_post posts) as Hposts.
  destruct posts as [|post posts]; [done|].
  cbn [fmap list_fmap] in *.
  destruct (decide (App.encodable (post :: posts))) as [He|He].
  - by rewrite (proj2 Hposts He).
  - destruct (existsb unrenderable _); [done|]. destruct He. by apply Hposts.
Qed.

(** Two indexes that are not post records: a record whose tags are given as
    text fails the load after the tags of the others are drawn, and the
    list is not written; a record with no member at all is loaded. *)
Lemma loadPosts_text_tags :
  let hello := of_post App.Sample.hello in
  let after := exec (loadPosts (Body (JsonArray [hello; Sample.text_tags]))) initial in
  loadingEl_failure after = true
  ∧ allPosts after = JsonArray [hello; Sample.text_tags]
  ∧ allTags after = [str "Web"; str "js"]
  ∧ postsList after = [].
Proof. by vm_compute. Qed.

Lemma loadPosts_bare :
  let after := exec (loadPosts (Body (JsonArray [Sample.bare]))) initial in
  loadingEl_failure after = false
  ∧ allPosts after = JsonArray [Sample.bare]
  ∧ postsList after = [Sample.bare]
  ∧ loadingEl_display after = App.DisplayNone.
Proof. by vm_compute. Qed.

End IndexFacts.

(** ** The search box *)

Module SearchBoxFacts.
Import Js SearchBox.

Lemma filter_own_timer (id : positive) (due : N) (query : jsstring) :
  filter (λ t, timer_id t ≠ id) [mkTimer id due query] = [].
Proof. rewrite filter_cons_False; [done|]. simpl. by intros []. Qed.

(** An input event cancels the pending timeout, after it has run if it was
    due, and sets a new one. *)
Lemma dispatch_input (st : state) (pending : option (N * jsstring)) (now : N)
    (value : jsstring) :
  waiting st pending →
  let st' := dispatch now (InputEvent value) st in
  waiting st' (Some ((now + DEBOUNCE_DELAY)%N, trim value))
  ∧ calls st' = calls st ++ due_calls pending now.
Proof.
  intros [Hloaded Hpending]. destruct st as [active pending' next text loaded made].
  simpl in Hloaded. subst loaded. unfold dispatch, advance, waiting.
  destruct pending as [[due query]|]; simpl in Hpending; simpl due_calls.
  - destruct Hpending as (id & -> & ->). cbn [timers run_due timer_due].
    destruct (due <=? now)%N.
    + cbn [call_updateSearchResults app_loaded searchTimeout timers next_id
           searchInput_value calls timer_id timer_query].
      rewrite filter_own_timer. simpl. eauto.
    + unfold handleSearch, clearTimeout.
      cbn [app_loaded searchTimeout timers next_id searchInput_value calls].
      rewrite filter_own_timer. simpl. rewrite app_nil_r. eauto.
  - subst pending'. simpl. rewrite app_nil_r. destruct active; simpl; eauto.
Qed.

(** When time has gone past every pending timeout, the calls made are
    those of [debounced]. *)
Lemma run_inputs (inputs : list (N * jsstring)) (st : state)
    (pending : option (N * jsstring)) (horizon : N) :
  waiting st pending →
  (∀ t value, (t, value) ∈ inputs → (t + DEBOUNCE_DELAY ≤ horizon)%N) →
  (∀ due query, pending = Some (due, query) → (due ≤ horizon)%N) →
  calls (advance horizon (run (input_events inputs) st)) =
  calls st ++
  match inputs with
  | [] => due_calls pending horizon
  | (t, _) :: _ => due_calls pending t ++ debounced inputs
  end.
Proof.
  revert st pending. induction inputs as [|[t value] rest IH]; intros st pending Hw Hin Hp.
  - destruct Hw as [Hloaded Hpending].
    destruct st as [active pending' next text loaded made].
    simpl in Hloaded. subst loaded. unfold advance. simpl run.
    destruct pending as [[due query]|]; simpl in Hpending; simpl due_calls.
    + destruct Hpending as (id & -> & ->). cbn [timers run_due timer_due].
      by rewrite (proj2 (N.leb_le _ _) (Hp _ _ eq_refl)).
    + subst pending'. simpl. by rewrite app_nil_r.
  - change (run (input_events ((t, value) :: rest)) st)
      with (run (input_events rest) (dispatch t (InputEvent value) st)).
    destruct (dispatch_input st pending t value Hw) as [Hw' Hcalls].
    rewrite (IH _ _ Hw').
    + rewrite Hcalls, <-app_assoc. f_equal. f_equal.
      destruct rest as [|[t' value'] rest'].
      * simpl. rewrite (proj2 (N.leb_le _ _)); [done|].
        apply (Hin t value). left.
      * cbn [debounced due_calls]. rewrite N.ltb_antisym.
        by destruct (t + DEBOUNCE_DELAY <=? t')%N.
    + intros t' value' H. apply (Hin t' value'). by right.
    + intros due query [= <- <-]. apply (Hin t value). left.
Qed.

(** An input gives a call exactly when no other input follows it within
    the delay. *)
Lemma debounced_elem_of (inputs : list (N * jsstring)) (T : N) (query : jsstring) :
  (T, query) ∈ debounced inputs ↔
  ∃ i t value,
    inputs !! i = Some (t, value)
    ∧ T = (t + DEBOUNCE_DELAY)%N ∧ query = trim value
    ∧ ∀ t' value', inputs !! S i = Some (t', value') → (t + DEBOUNCE_DELAY ≤ t')%N.
Proof.
  induction inputs as [|[t value] rest IH].
  - simpl. split; [by intros ?%elem_of_nil|]. by intros (i & t & v & ? & _).
  - assert ((T, query) ∈ debounced rest ↔
            ∃ i t0 value0, ((t, value) :: rest) !! S i = Some (t0, value0)
              ∧ T = (t0 + DEBOUNCE_DELAY)%N ∧ query = trim value0
              ∧ ∀ t' value', ((t, value) :: rest) !! S (S i) = Some (t', value') →
                             (t0 + DEBOUNCE_DELAY ≤ t')%N) as Htail by apply IH.
    destruct rest as [|[t' value'] rest'].
    + simpl. rewrite list_elem_of_singleton. split.
      * intros [= -> ->]. exists 0, t, value. by split_and!.
      * intros ([|i] & t0 & v0 & H & -> & -> & _); by simplify_eq/=.
    + cbn [debounced]. destruct (t' <? t + DEBOUNCE_DELAY)%N eqn:E.
      * rewrite Htail. split.
        -- intros (i & ?). by exists (S i).
        -- intros ([|i] & t0 & v0 & H & HT & Hq & Hnext).
           ++ simplify_eq/=. apply N.ltb_lt in E.
              specialize (Hnext t' value' eq_refl). lia.
           ++ exists i, t0, v0. by split_and!.
      * rewrite elem_of_cons, Htail. split.
        -- intros [[= -> ->]|(i & ?)].
           ++ exists 0, t, value. split_and!; [done..|].
              intros t0 v0 [= <- <-]. by apply N.ltb_ge.
           ++ by exists (S i).
        -- intros ([|i] & t0 & v0 & H & HT & Hq & Hnext).
           ++ left. by simplify_eq/=.
           ++ right. exists i, t0, v0. by split_and!.
Qed.

(** C8. The input events of the search box, followed until every delay has
    run out, give the calls of [debounced]: one for each event that no other
    event follows within 300 ms, made 300 ms after it with its text
    trimmed, and none for the others.  Three events at 0, 100 and 150 ms give
    one call, at 450 ms, with the text of the third. *)
Theorem handleSearch_debounce (inputs : list (N * jsstring)) (horizon : N) :
  (∀ t value, (t, value) ∈ inputs → (t + DEBOUNCE_DELAY ≤ horizon)%N) →
  calls (advance horizon (run (input_events inputs) initial)) = debounced inputs
  ∧ (∀ T query,
       (T, query) ∈ debounced inputs ↔
       ∃ i t value,
         inputs !! i = Some (t, value)
         ∧ T = (t + 300)%N ∧ query = trim value
         ∧ ∀ t' value', inputs !! S i = Some (t', value') → (t + 300 ≤ t')%N)
  ∧ ∀ first second third : jsstring,
      calls (advance 450
               (run [(0%N, InputEvent first); (100%N, InputEvent second);
                     (150%N, InputEvent third)] initial))
      = [(450%N, trim third)].
Proof.
  intros Hin. split_and!.
  - rewrite (run_inputs inputs initial None horizon); [|done..].
    by destruct inputs as [|[t value] rest].
  - apply debounced_elem_of.
  - intros first second third.
    apply (run_inputs [(0%N, first); (100%N, second); (150%N, third)]
             initial None 450); [done| |done].
    intros t value Hin'. set_unfold in Hin'.
    destruct Hin' as [[= -> _]|[[= -> _]|[[= -> _]|[]]]]; by compute.
Qed.

Lemma handleSearch_debounce_witness :
  calls (advance 1000
           (run (input_events [(0%N, str "r"); (120%N, str "ro "); (500%N, str " rocq")])
              initial))
  = [(420%N, str "ro"); (800%N, str "rocq")].
Proof.
  assert (∀ t value,
            (t, value) ∈ [(0%N, str "r"); (120%N, str "ro "); (500%N, str " rocq")] →
            (t + DEBOUNCE_DELAY ≤ 1000)%N) as Hin.
  { intros t value Hin. set_unfold in Hin.
    destruct Hin as [[= -> _]|[[= -> _]|[[= -> _]|[]]]]; by compute. }
  rewrite (proj1 (handleSearch_debounce _ 1000 Hin)). reflexivity.
Defined.

End SearchBoxFacts.

(** ** The theme switch *)

Module ThemeFacts.
Import Js Theme.

Lemma setTheme_fields (theme : jsstring) (st : state) :
  data_theme (setTheme theme st) = Some theme
  ∧ localStorage (setTheme theme st) = localStorage st.
Proof.
  unfold setTheme, updateGiscusTheme. simpl.
  by destruct (giscus_hook st), (giscus_frame st).
Qed.

(** Once a theme is stored, a change of the system scheme does nothing. *)
Lemma systemChange_stored (matches : bool) (st : state) :
  truthy (localStorage st !! THEME_KEY) = true → systemChange matches st = st.
Proof. unfold systemChange. by intros ->. Qed.

Lemma toggleTheme_fields (st : state) :
  let chosen := if bool_decide (data_theme st = Some DARK_THEME)
                then LIGHT_THEME else DARK_THEME in
  data_theme (toggleTheme st) = Some chosen
  ∧ localStorage (toggleTheme st) !! THEME_KEY = Some chosen.
Proof.
  intros chosen. unfold toggleTheme. fold chosen. simpl.
  split; [apply setTheme_fields|apply lookup_insert_eq].
Qed.

Lemma run_stored (changes : list bool) (st : state) :
  truthy (localStorage st !! THEME_KEY) = true →
  run (SystemChange <$> changes) st = st.
Proof.
  intros Hst. induction changes as [|matches changes IH]; [done|].
  unfold run in *. simpl. by rewrite systemChange_stored.
Qed.

(** C9. With nothing stored, the theme set at start is the scheme the system
    reports, dark for dark, and each later change of the system scheme is
    taken over, nothing being stored.  A toggle stores the theme it sets;
    from then on no change of the system scheme alters the theme: toggled
    from dark to light, it stays light. *)
Theorem theme_follows_system_until_toggle (st : state) (changes : list bool) :
  (localStorage st !! THEME_KEY = None →
   ∀ dark,
     data_theme (initTheme dark st) = Some (if dark then DARK_THEME else LIGHT_THEME)
     ∧ data_theme (systemChange dark st) = Some (if dark then DARK_THEME else LIGHT_THEME)
     ∧ localStorage (initTheme dark st) !! THEME_KEY = None
     ∧ localStorage (systemChange dark st) !! THEME_KEY = None)
  ∧ (let toggled := toggleTheme st in
     let later := run (SystemChange <$> changes) toggled in
     localStorage toggled !! THEME_KEY = data_theme toggled
     ∧ data_theme later = data_theme toggled
     ∧ localStorage later !! THEME_KEY = data_theme toggled)
  ∧ (localStorage st !! THEME_KEY = None →
     let started := initTheme true st in
     data_theme started = Some DARK_THEME
     ∧ data_theme (toggleTheme started) = Some LIGHT_THEME
     ∧ data_theme (run (SystemChange <$> changes) (toggleTheme started))
       = Some LIGHT_THEME).
Proof.
  assert (∀ st', truthy (localStorage (toggleTheme st') !! THEME_KEY) = true) as Hstored.
  { intros st'. rewrite (proj2 (toggleTheme_fields st')). by case_bool_decide. }
  split_and!.
  - intros Hnone dark. unfold initTheme, systemChange. rewrite Hnone. simpl.
    destruct (setTheme_fields (if dark then DARK_THEME else LIGHT_THEME) st)
      as [-> ->]. done.
  - intros toggled later. subst later toggled. rewrite run_stored by done.
    destruct (toggleTheme_fields st) as [-> ->]. done.
  - intros Hnone started.
    assert (data_theme started = Some DARK_THEME) as Hstarted.
    { subst started. unfold initTheme. rewrite Hnone. apply setTheme_fields. }
    rewrite run_stored by done.
    rewrite (proj1 (toggleTheme_fields started)), Hstarted.
    by rewrite bool_decide_eq_true_2.
Qed.

Lemma theme_follows_system_until_toggle_witness :
  let st := mkState None ∅ true true [] in
  let started := initTheme true st in
  data_theme started = Some DARK_THEME
  ∧ data_theme (toggleTheme started) = Some LIGHT_THEME
  ∧ data_theme (run (SystemChange <$> [true; false; true]) (toggleTheme started))
    = Some LIGHT_THEME.
Proof.
  apply (proj2 (proj2 (theme_follows_system_until_toggle
                         (mkState None ∅ true true []) [true; false; true]))).
  reflexivity.
Defined.

End ThemeFacts.

(** * Further properties *)

(** ** More on the string built-ins *)

Module JsMore.
Import Js JsFacts.

(** [cut] finds the first occurrence, and only that one. *)
Lemma cut_iff (s sep before after : jsstring) :
  cut s sep = Some (before, after) ↔
  s = before ++ sep ++ after
  ∧ ∀ k, k < length before → startsWith (drop k s) sep = false.
Proof.
  split.
  - intros H. split; [by apply cut_Some|by apply (cut_first _ _ _ _ H)].
  - intros [-> Hfirst]. induction before as [|c before IH].
    + rewrite cut_unfold.
      assert (startsWith ([] ++ sep ++ after) sep = true) as ->
        by (apply startsWith_spec; eauto).
      simpl. by rewrite drop_app_length.
    + rewrite cut_unfold.
      pose proof (Hfirst 0 ltac:(simpl; lia)) as H0.
      change (drop 0 ?l) with l in H0. rewrite H0.
      change ((c :: before) ++ sep ++ after) with (c :: before ++ sep ++ after).
      cbv iota. rewrite IH; [done|]. intros k Hk. apply (Hfirst (S k)). simpl. lia.
Qed.

(** *** [trim] *)

Lemma trimStart_suffix (s : jsstring) : trimStart s `suffix_of` s.
Proof.
  induction s as [|c s IH]; simpl; [done|].
  destruct (is_space c); [by apply suffix_cons_r|done].
Qed.

Lemma trimStart_head (s : jsstring) (c : N) (rest : jsstring) :
  trimStart s = c :: rest → is_space c = false.
Proof.
  induction s as [|d s IH]; simpl; [done|].
  destruct (is_space d) eqn:E; [done|]. by intros [= <- <-].
Qed.

Lemma trimStart_id (c : N) (s : jsstring) :
  is_space c = false → trimStart (c :: s) = c :: s.
Proof. simpl. by intros ->. Qed.

Lemma trimEnd_prefix (s : jsstring) : trimEnd s `prefix_of` s.
Proof.
  unfold trimEnd. destruct (trimStart_suffix (reverse s)) as [k Hk].
  exists (reverse k). apply (inj reverse).
  by rewrite reverse_app, !reverse_involutive.
Qed.

Lemma trimEnd_last (s front : jsstring) (c : N) :
  trimEnd s = front ++ [c] → is_space c = false.
Proof.
  unfold trimEnd. intros H. apply (f_equal reverse) in H.
  rewrite reverse_involutive, reverse_app, reverse_singleton in H.
  by apply trimStart_head in H.
Qed.

Lemma trimEnd_id (s : jsstring) (c : N) :
  is_space c = false → trimEnd (s ++ [c]) = s ++ [c].
Proof.
  intros Hc. unfold trimEnd. rewrite reverse_app, reverse_singleton. simpl.
  rewrite Hc. by rewrite reverse_cons, reverse_involutive.
Qed.

(** What [trim] returns stands in the string as it is. *)
Lemma trim_infix (s : jsstring) : ∃ before after, s = before ++ trim s ++ after.
Proof.
  unfold trim. destruct (trimStart_suffix s) as [before Hs].
  destruct (trimEnd_prefix (trimStart s)) as [after Ht].
  exists before, after. by rewrite <-Ht.
Qed.

Lemma trim_elem_of (s : jsstring) (c : N) : c ∈ trim s → c ∈ s.
Proof.
  destruct (trim_infix s) as (before & after & Hs). rewrite Hs at 2.
  rewrite !elem_of_app. auto.
Qed.

(** It has no white space at either end. *)
Lemma trim_ends (s : jsstring) :
  trim s = []
  ∨ ∃ c middle d, (trim s = [c] ∨ trim s = c :: middle ++ [d])
                  ∧ is_space c = false ∧ is_space d = false.
Proof.
  unfold trim. destruct (trimEnd (trimStart s)) as [|c t] eqn:E; [by left|right].
  assert (is_space c = false) as Hc.
  { destruct (trimEnd_prefix (trimStart s)) as [k Hk]. rewrite E in Hk.
    by apply trimStart_head in Hk. }
  destruct t as [|d t _] using rev_ind.
  - exists c, [], c. auto.
  - exists c, t, d. split_and!; [by right|done|].
    by apply (trimEnd_last (trimStart s) (c :: t)).
Qed.

(** Trimming twice is trimming once. *)
Lemma trim_idemp (s : jsstring) : trim (trim s) = trim s.
Proof.
  destruct (trim_ends s) as [->|(c & middle & d & [E|E] & Hc & Hd)]; [done|..];
    rewrite E; unfold trim.
  - rewrite trimStart_id by done. by apply (trimEnd_id []).
  - rewrite trimStart_id by done. by apply (trimEnd_id (c :: middle)).
Qed.

(** *** [indexOf] and [split] *)

Lemma indexOf_Some (s : jsstring) (c : N) (i : nat) :
  indexOf s c = Some i → (c ∉ take i s) ∧ s !! i = Some c.
Proof.
  revert i. induction s as [|d s IH]; intros i; simpl; [done|].
  destruct (d =? c)%N eqn:E.
  - intros [= <-]. apply N.eqb_eq in E as ->. split; [apply not_elem_of_nil|done].
  - destruct (indexOf s c) as [j|] eqn:Ej; [|done]. simpl. intros [= <-].
    destruct (IH j eq_refl) as [Hnot Hat]. split; [|done].
    simpl. rewrite not_elem_of_cons. split; [|done].
    intros ->. by rewrite N.eqb_refl in E.
Qed.

Lemma indexOf_None (s : jsstring) (c : N) : indexOf s c = None ↔ c ∉ s.
Proof.
  induction s as [|d s IH]; simpl.
  - split; [intros _; apply not_elem_of_nil|done].
  - rewrite not_elem_of_cons. destruct (d =? c)%N eqn:E.
    + apply N.eqb_eq in E as ->. split; [done|]. by intros [? _].
    + apply N.eqb_neq in E. destruct (indexOf s c); simpl.
      * split; [done|]. intros [_ H]. by apply IH in H.
      * split; [|done]. intros _. split; [done|by apply IH].
Qed.

(** The pieces of [split] hold no separator, there is one more of them than
    separators, and joined with the separator they give the string back. *)
Lemma split_pieces (s : jsstring) (c : N) :
  Forall (λ piece, c ∉ piece) (split s c)
  ∧ length (split s c) = S (length (filter (λ d, d = c) s))
  ∧ ∃ piece pieces, split s c = piece :: pieces
                    ∧ s = piece ++ mjoin ((λ p, c :: p) <$> pieces).
Proof.
  induction s as [|d s (IHall & IHlen & piece & pieces & IHsplit & IHjoin)]; simpl.
  - split_and!; [|done|by exists [], []].
    repeat constructor. apply not_elem_of_nil.
  - rewrite IHsplit in *. destruct (d =? c)%N eqn:E.
    + apply N.eqb_eq in E as ->. rewrite filter_cons_True by done. simpl.
      split_and!; [|by rewrite <-IHlen|].
      * constructor; [apply not_elem_of_nil|done].
      * exists [], (piece :: pieces). split; [done|]. simpl. by f_equal.
    + apply N.eqb_neq in E. rewrite filter_cons_False by done.
      apply Forall_cons in IHall as [Hpiece Hpieces].
      split_and!; [|done|].
      * constructor; [|done]. rewrite not_elem_of_cons. done.
      * exists (d :: piece), pieces. split; [done|]. simpl. by f_equal.
Qed.

End JsMore.

(** ** More on [JSON.parse] *)

Module JsonMore.
Import Js Json.

(** The lexer only adds tokens. *)
Lemma lex_start_tokens (toks toks' : list token) (c : N) (st' : lex_state) :
  lex_start toks c = Some (st', toks') → ∃ more, toks' = more ++ toks.
Proof.
  unfold lex_start. intros H.
  repeat case_match; simplify_eq; first [by exists [] | by eexists [_]].
Qed.

Lemma lex_step_tokens (st st' : lex_state) (toks toks' : list token) (c : N) :
  lex_step st toks c = Some (st', toks') → ∃ more, toks' = more ++ toks.
Proof.
  destruct st as [|acc|acc|acc read value|ph acc|tok rest]; simpl.
  - apply lex_start_tokens.
  - intros H. repeat case_match; simplify_eq; first [by exists [] | by eexists [_]].
  - unfold lex_escape. intros H. repeat case_match; simplify_eq; by exists [].
  - intros H. repeat case_match; simplify_eq; by exists [].
  - unfold lex_number. intros H.
    repeat case_match; simplify_eq; try (by exists []);
      match goal with
      | H : lex_start _ _ = Some _ |- _ =>
          apply lex_start_tokens in H as [more ->]; exists (more ++ [TNumber (reverse acc)]);
          by rewrite <-app_assoc
      end.
  - intros H. repeat case_match; simplify_eq; first [by exists [] | by eexists [_]].
Qed.

Lemma lex_run_tokens (text : jsstring) (st st' : lex_state) (toks toks' : list token) :
  lex_run st toks text = Some (st', toks') → ∃ more, toks' = more ++ toks.
Proof.
  revert st toks. induction text as [|c text IH]; intros st toks; simpl.
  - intros [= <- <-]. by exists [].
  - destruct (lex_step st toks c) as [[st1 toks1]|] eqn:E; [|done].
    intros H. apply IH in H as [more ->].
    apply lex_step_tokens in E as [more1 ->].
    exists (more ++ more1). by rewrite <-app_assoc.
Qed.

(** A text that opens with a bracket has the bracket as its first token. *)
Lemma lex_bracket (text : jsstring) (toks : list token) :
  lex (LBRACKET :: text) = Some toks → ∃ toks', toks = TLBracket :: toks'.
Proof.
  unfold lex. change (lex_run LStart [] (LBRACKET :: text))
    with (lex_run LStart [TLBracket] text).
  destruct (lex_run LStart [TLBracket] text) as [[st toks1]|] eqn:E; [|done].
  apply lex_run_tokens in E as [more ->].
  unfold lex_finish. intros H.
  repeat case_match; simplify_eq;
    rewrite ?reverse_cons, reverse_app, reverse_singleton; simpl; eauto.
Qed.

Lemma deliver_in_array (v : json) (upper : list frame) (items : list json)
    (stack' : list frame) (e' : expect) :
  deliver v (upper ++ [FArr items]) = Some (stack', e') → in_array stack' e'.
Proof.
  destruct upper as [|[items'|members [k|]] upper]; simpl; intros H; simplify_eq;
    left.
  - by exists [], (v :: items).
  - by exists (FArr (v :: items') :: upper), items.
  - by exists (FObj (obj_set k v members) None :: upper), items.
Qed.

Lemma parse_step_in_array (stack stack' : list frame) (e e' : expect) (tok : token) :
  in_array stack e → parse_step stack e tok = Some (stack', e') → in_array stack' e'.
Proof.
  intros [(upper & items & ->)|[-> [items ->]]]; [|done].
  assert (∀ v, deliver v (upper ++ [FArr items]) = Some (stack', e') →
               in_array stack' e') as Hdeliver
    by (intros v; apply deliver_in_array).
  assert (parse_value (upper ++ [FArr items]) tok = Some (stack', e') →
          in_array stack' e') as Hvalue.
  { unfold parse_value. destruct tok; try done; try apply Hdeliver.
    - intros [= <- <-]. left. by exists (FArr [] :: upper), items.
    - intros [= <- <-]. left. by exists (FObj [] None :: upper), items. }
  assert (close_array (upper ++ [FArr items]) = Some (stack', e') →
          in_array stack' e') as Harray.
  { unfold close_array. destruct upper as [|[items'|members k] upper]; simpl; [|by apply deliver_in_array|done].
    intros [= <- <-]. right. eauto. }
  assert (close_object (upper ++ [FArr items]) = Some (stack', e') →
          in_array stack' e') as Hobject.
  { unfold close_object. destruct upper as [|[items'|members [k|]] upper]; simpl; try done.
    apply deliver_in_array. }
  assert (∀ k, open_key k (upper ++ [FArr items]) = Some (stack', e') →
               in_array stack' e') as Hkey.
  { intros k. unfold open_key.
    destruct upper as [|[items'|members [k'|]] upper]; simpl; try done.
    intros [= <- <-]. left. by exists (FObj members (Some k) :: upper), items. }
  unfold parse_step. intros H.
  destruct e, tok; simplify_eq; eauto; left; eauto.
Qed.

Lemma parse_run_in_array (toks : list token) (stack stack' : list frame) (e e' : expect) :
  in_array stack e → parse_run stack e toks = Some (stack', e') → in_array stack' e'.
Proof.
  revert stack e. induction toks as [|tok toks IH]; intros stack e Hin; simpl.
  - by intros [= <- <-].
  - destruct (parse_step stack e tok) as [[stack1 e1]|] eqn:E; [|done].
    apply IH. by apply (parse_step_in_array _ _ _ _ _ Hin E).
Qed.

(** What [JSON.parse] makes of a text that opens with a bracket is an array. *)
Lemma JSON_parse_bracket (text : jsstring) (v : json) :
  JSON_parse (LBRACKET :: text) = Normal v → ∃ items, v = JArr items.
Proof.
  unfold JSON_parse. destruct (lex (LBRACKET :: text)) as [toks|] eqn:E; [|done].
  apply lex_bracket in E as [toks' ->].
  change (parse_run [] PValue (TLBracket :: toks'))
    with (parse_run [FArr []] PArrFirst toks').
  destruct (parse_run [FArr []] PArrFirst toks') as [[stack e]|] eqn:Er; [|done].
  apply parse_run_in_array in Er; [|left; by exists [], []].
  destruct Er as [(upper & items & ->)|[-> [items ->]]].
  - by destruct upper.
  - intros [= <-]. eauto.
Qed.

End JsonMore.

(** ** More on the front matter *)

Module PostLoaderMore.
Import Js Json PostLoader JsFacts JsMore JsonMore PostLoaderFacts.

(** The body of the loop, by what the line gives. *)
Lemma parseLine_line_entry (metadata : gmap jsstring json) (line : jsstring) :
  parseLine metadata line =
  Normal (match line_entry line with
          | Some (key, value) => set_property metadata key value
          | None => metadata
          end).
Proof.
  unfold parseLine, line_entry. destruct (indexOf line COLON) as [[|i]|]; try done.
  cbv zeta. case_match; [|done].
  unfold parse_tags, Js.try_catch. by case_match.
Qed.

Lemma forEach_parseLine (lines : list jsstring) (metadata : gmap jsstring json) :
  forEach parseLine metadata lines =
  Normal (foldl (λ m line, match line_entry line with
                           | Some (key, value) => set_property m key value
                           | None => m
                           end) metadata lines).
Proof.
  revert metadata. induction lines as [|line lines IH]; intros metadata; [done|].
  simpl. rewrite parseLine_line_entry. simpl. apply IH.
Qed.

(** X2. The keys the loop leaves are those it found and those some line
    gives, [__proto__] apart. *)
Theorem parseLine_keys (lines : list jsstring) (metadata metadata' : gmap jsstring json)
    (key : jsstring) :
  forEach parseLine metadata lines = Normal metadata' →
  is_Some (metadata' !! key) ↔
  is_Some (metadata !! key)
  ∨ (key ≠ str "__proto__"
     ∧ ∃ line value, line ∈ lines ∧ line_entry line = Some (key, value)).
Proof.
  rewrite forEach_parseLine. intros [= <-]. revert metadata.
  induction lines as [|line lines IH]; intros metadata; simpl.
  - split; [auto|]. intros [?|(_ & line & v & Hin & _)]; [done|].
    by apply elem_of_nil in Hin.
  - rewrite IH. clear IH. split.
    + intros [Hnow|(Hne & l & v & Hin & Hl)].
      * destruct (line_entry line) as [[k v]|] eqn:E; [|by left].
        unfold set_property in Hnow. case_decide; [by left|].
        destruct (decide (k = key)) as [->|Hk].
        -- right. split; [done|]. exists line, v. split; [left|done].
        -- rewrite lookup_insert_ne in Hnow by done. by left.
      * right. split; [done|]. exists l, v. split; [by right|done].
    + intros [Hold|(Hne & l & v & [->|Hin]%elem_of_cons & Hl)].
      * left. destruct (line_entry line) as [[k v]|]; [|done].
        unfold set_property. case_decide; [done|].
        destruct (decide (k = key)) as [->|Hk].
        -- rewrite lookup_insert_eq. eauto.
        -- by rewrite lookup_insert_ne.
      * left. rewrite Hl. unfold set_property. rewrite decide_False by done.
        rewrite lookup_insert_eq. eauto.
      * right. eauto.
Qed.

(** X3. Of the lines that give a key, the last one decides its value. *)
Theorem parseLine_last_wins (before after : list jsstring) (line key : jsstring)
    (value : json) (metadata : gmap jsstring json) :
  line_entry line = Some (key, value) →
  key ≠ str "__proto__" →
  (∀ l v, l ∈ after → line_entry l ≠ Some (key, v)) →
  ∃ metadata', forEach parseLine metadata (before ++ line :: after) = Normal metadata'
               ∧ metadata' !! key = Some value.
Proof.
  intros Hline Hne Hafter. eexists. split; [apply forEach_parseLine|].
  rewrite foldl_app. simpl. rewrite Hline.
  generalize (foldl (λ m l, match line_entry l with
                            | Some (k, v) => set_property m k v
                            | None => m
                            end) metadata before).
  intros m0.
  assert (set_property m0 key value !! key = Some value) as Hnow.
  { unfold set_property. rewrite decide_False by done. apply lookup_insert_eq. }
  revert Hnow. generalize (set_property m0 key value). clear m0.
  induction after as [|l after IH]; intros m Hm; simpl; [done|].
  apply IH.
  - intros l' v Hin. apply Hafter. by right.
  - destruct (line_entry l) as [[k v]|] eqn:E; [|done].
    unfold set_property. case_decide; [done|].
    rewrite lookup_insert_ne; [done|]. intros ->. by apply (Hafter l v); [left|].
Qed.

Lemma line_entry_Some (line key : jsstring) (value : json) :
  line_entry line = Some (key, value) →
  ∃ i, indexOf line COLON = Some (S i)
       ∧ key = trim (substring line 0 (S i))
       ∧ value =
         let v := unquote (trim (substring_from line (S i + 1))) in
         if bool_decide (key = str "tags")
            && startsWith v [LBRACKET] && endsWith v [RBRACKET]
         then match JSON_parse v with
              | Normal tags => tags
              | Throws _ => split_tags v
              end
         else JStr v.
Proof.
  unfold line_entry. destruct (indexOf line COLON) as [[|i]|] eqn:E; try done.
  cbv zeta. intros H. apply (inj Some) in H. apply pair_equal_spec in H as [Hk Hv].
  exists i. subst key value. done.
Qed.

(** What a line gives has a key without a colon and without white space
    around it. *)
Lemma line_entry_key (line key : jsstring) (value : json) :
  line_entry line = Some (key, value) → (COLON ∉ key) ∧ trim key = key.
Proof.
  intros (i & E & -> & _)%line_entry_Some. split.
  - intros Hin%trim_elem_of. apply indexOf_Some in E as [Hnot _].
    unfold substring in Hin. rewrite drop_0, Nat.sub_0_r in Hin. done.
  - apply trim_idemp.
Qed.

(** Its value is a string, or for [tags] in brackets an array. *)
Lemma line_entry_value (line key : jsstring) (value : json) :
  line_entry line = Some (key, value) →
  (∃ s, value = JStr s) ∨ (key = str "tags" ∧ ∃ items, value = JArr items).
Proof.
  intros (i & E & Hk & ->)%line_entry_Some. cbv zeta.
  set (v := unquote (trim (substring_from line (S i + 1)))).
  destruct (bool_decide (key = str "tags")) eqn:Ek; [|left; eauto].
  apply bool_decide_eq_true in Ek.
  destruct (startsWith v [LBRACKET]) eqn:Eo; [|left; eauto].
  destruct (endsWith v [RBRACKET]) eqn:Ec; [|left; eauto].
  cbn [andb]. right. split; [done|].
  destruct (JSON_parse v) as [tags|e] eqn:Ep; [|unfold split_tags; eauto].
  apply startsWith_spec in Eo as [rest Hv]. rewrite Hv in Ep.
  exact (JSON_parse_bracket rest tags Ep).
Qed.

(** X4. In the metadata of any document, no key is [__proto__], holds a
    colon, or has white space around it; every value is a string, except
    that of [tags], which may be an array. *)
Theorem parseFrontMatter_metadata_shape (raw key : jsstring) (result : parsed)
    (value : json) :
  parseFrontMatter raw = Normal result →
  metadata result !! key = Some value →
  key ≠ str "__proto__" ∧ (COLON ∉ key) ∧ trim key = key
  ∧ ((∃ s, value = JStr s) ∨ (key = str "tags" ∧ ∃ items, value = JArr items)).
Proof.
  unfold parseFrontMatter.
  destruct (match_front_matter raw) as [[frontMatter postContent]|].
  - rewrite forEach_parseLine. simpl. intros [= <-]. simpl.
    generalize (split frontMatter LF). intros lines.
    assert (∀ m : gmap jsstring json,
              m !! key = Some value →
              (m = ∅ → False) ∨ True) as _ by auto.
    set (good := λ (m : gmap jsstring json),
           ∀ k v, m !! k = Some v →
             k ≠ str "__proto__" ∧ (COLON ∉ k) ∧ trim k = k
             ∧ ((∃ s, v = JStr s) ∨ (k = str "tags" ∧ ∃ items, v = JArr items))).
    assert (∀ m, good m →
              good (foldl (λ m line, match line_entry line with
                                     | Some (k, v) => set_property m k v
                                     | None => m
                                     end) m lines)) as Hgood.
    { induction lines as [|line lines IH]; intros m Hm; simpl; [done|].
      apply IH. destruct (line_entry line) as [[k v]|] eqn:E; [|done].
      unfold set_property. case_decide as Hp; [done|].
      intros k' v'. destruct (decide (k = k')) as [<-|Hk].
      - rewrite lookup_insert_eq. intros [= <-].
        destruct (line_entry_key _ _ _ E). split_and!; try done.
        by apply (line_entry_value line).
      - rewrite lookup_insert_ne by done. apply Hm. }
    intros Hlook. apply (Hgood ∅); [|done]. intros k v. by rewrite lookup_empty.
  - intros [= <-]. simpl. by rewrite lookup_empty.
Qed.

(** X1. A document made of the opening fence, a block, the closing fence and
    a body, where the closing fence does not begin earlier in the block: the
    content returned is that body, untouched, and the metadata are those of
    the lines of the block.  The block ends at the first closing fence, so a
    fence further down belongs to the body. *)
Theorem parseFrontMatter_first_fence (block body : jsstring) :
  (∀ k, k < length block → startsWith (drop k (block ++ CLOSING ++ body)) CLOSING = false) →
  ∃ metadata,
    parseFrontMatter (OPENING ++ block ++ CLOSING ++ body)
    = Normal {| metadata := metadata; content := body |}
    ∧ forEach parseLine ∅ (split block LF) = Normal metadata.
Proof.
  intros Hfirst. unfold parseFrontMatter, match_front_matter.
  assert (startsWith (OPENING ++ block ++ CLOSING ++ body) OPENING = true) as ->
    by (apply startsWith_spec; eauto).
  rewrite drop_app_length.
  rewrite (proj2 (cut_iff (block ++ CLOSING ++ body) CLOSING block body)) by done.
  destruct (forEach_parseLine_normal (split block LF) ∅) as [metadata Hm].
  exists metadata. by rewrite Hm.
Qed.

(** The pieces of the fallback for [tags]. *)
Lemma strip_quote_marks_elem_of (tag : jsstring) (c : N) :
  c ∈ strip_quote_marks tag → c ∈ tag.
Proof.
  unfold strip_quote_marks.
  set (rest := match tag with
               | d :: tag' => if is_quote d then tag' else tag
               | [] => []
               end).
  assert (c ∈ rest → c ∈ tag) as Hrest.
  { subst rest. destruct tag as [|d tag']; [done|].
    destruct (is_quote d); [by right|done]. }
  destruct (reverse rest) as [|d front] eqn:E; [done|].
  destruct (is_quote d); [|done].
  intros Hin. apply Hrest. apply (f_equal reverse) in E.
  rewrite reverse_involutive, reverse_cons in E. rewrite E.
  apply elem_of_app. by left.
Qed.

(** X5. When [JSON.parse] rejects the value of [tags], the array it is given
    instead has one string for each piece between commas, hence one more than
    there are commas between the brackets and never none, and no string
    holds a comma. *)
Theorem parse_tags_fallback (value : jsstring) (e : exn) :
  JSON_parse value = Throws e →
  ∃ tags : list jsstring,
    parse_tags value = Normal (JArr (JStr <$> tags))
    ∧ length tags = S (length (filter (λ c, c = COMMA) (slice value 1 (-1))))
    ∧ Forall (λ tag, COMMA ∉ tag) tags.
Proof.
  intros Hparse. unfold parse_tags, Js.try_catch, split_tags. rewrite Hparse.
  destruct (split_pieces (slice value 1 (-1)) COMMA) as (Hall & Hlen & _).
  exists ((λ tag, strip_quote_marks (trim tag)) <$> split (slice value 1 (-1)) COMMA).
  split_and!.
  - by rewrite <-list_fmap_compose.
  - by rewrite length_fmap.
  - rewrite Forall_fmap. eapply Forall_impl; [exact Hall|].
    intros piece Hpiece Hin. simpl in Hin.
    by apply strip_quote_marks_elem_of, trim_elem_of in Hin.
Qed.

(** X6. The quote removal, case by case: a value wrapped in a pair of equal
    quotes loses the pair; a value that is one quote alone becomes the empty
    string; every other value is kept as it is. *)
Theorem unquote_complete (value : jsstring) :
  (∃ q inner, (q = DQUOTE ∨ q = SQUOTE) ∧ value = q :: inner ++ [q]
              ∧ unquote value = inner)
  ∨ ((value = [DQUOTE] ∨ value = [SQUOTE]) ∧ unquote value = [])
  ∨ ((∀ q inner, q = DQUOTE ∨ q = SQUOTE → value ≠ q :: inner ++ [q])
     ∧ value ≠ [DQUOTE] ∧ value ≠ [SQUOTE] ∧ unquote value = value).
Proof. apply unquote_cases. Qed.

(** *** The rendering without [marked] *)

Lemma replaceAll_app (s t : jsstring) (c : N) (by_ : jsstring) :
  replaceAll (s ++ t) c by_ = replaceAll s c by_ ++ replaceAll t c by_.
Proof. unfold replaceAll. by rewrite fmap_app, join_app. Qed.

Lemma replaceAll_join (pieces : list jsstring) (c : N) (by_ : jsstring) :
  replaceAll (mjoin pieces) c by_ = mjoin ((λ p, replaceAll p c by_) <$> pieces).
Proof.
  induction pieces as [|p pieces IH]; [done|].
  simpl. by rewrite replaceAll_app, IH.
Qed.

(** What one character of the text becomes. *)
Lemma renderMarkdown_plain (content : jsstring) :
  renderMarkdown None content =
  mjoin ((λ c, if (c =? LT)%N then str "&lt;"
               else if (c =? GT)%N then str "&gt;"
               else if (c =? LF)%N then str "<br>"
               else [c]) <$> content).
Proof.
  unfold renderMarkdown. unfold replaceAll at 3.
  rewrite !replaceAll_join, <-!list_fmap_compose. f_equal.
  apply list_fmap_ext. intros _ c _. simpl.
  destruct (c =? LT)%N eqn:E1; [done|].
  unfold replaceAll at 2. simpl.
  destruct (c =? GT)%N eqn:E2; [done|].
  unfold replaceAll. simpl.
  by destruct (c =? LF)%N.
Qed.

Lemma renderMarkdown_char (c : N) :
  let piece := if (c =? LT)%N then str "&lt;"
               else if (c =? GT)%N then str "&gt;"
               else if (c =? LF)%N then str "<br>"
               else [c] in
  (LF ∉ piece)
  ∧ length (filter (λ d, d = LT) piece) = (if decide (c = LF) then 1 else 0)
  ∧ length (filter (λ d, d = GT) piece) = (if decide (c = LF) then 1 else 0).
Proof.
  cbv zeta.
  destruct (c =? LT)%N eqn:E1.
  { apply N.eqb_eq in E1 as ->. split_and!; [|done..].
    rewrite list_elem_of_In. by intros [?|[?|[?|[?|[]]]]]. }
  destruct (c =? GT)%N eqn:E2.
  { apply N.eqb_eq in E2 as ->. split_and!; [|done..].
    rewrite list_elem_of_In. by intros [?|[?|[?|[?|[]]]]]. }
  destruct (c =? LF)%N eqn:E3.
  { apply N.eqb_eq in E3 as ->. split_and!; [|done..].
    rewrite list_elem_of_In. by intros [?|[?|[?|[?|[]]]]]. }
  apply N.eqb_neq in E1, E2, E3.
  rewrite !filter_cons_False, !filter_nil, decide_False by done.
  split_and!; [|done..].
  apply not_elem_of_cons. split; [congruence|apply not_elem_of_nil].
Qed.

(** X7. Without [marked], the text is rendered with no line feed left, and
    with as many [<] and as many [>] as the text has line feeds: those of
    the [<br>] put in their place, the angle brackets of the text being
    written as [&lt;] and [&gt;]. *)
Theorem renderMarkdown_fallback (content : jsstring) :
  let html := renderMarkdown None content in
  (LF ∉ html)
  ∧ length (filter (λ c, c = LT) html) = length (filter (λ c, c = LF) content)
  ∧ length (filter (λ c, c = GT) html) = length (filter (λ c, c = LF) content).
Proof.
  cbv zeta. rewrite renderMarkdown_plain.
  induction content as [|c content (IH1 & IH2 & IH3)].
  - split_and!; [apply not_elem_of_nil|done..].
  - destruct (renderMarkdown_char c) as (H1 & H2 & H3).
    match goal with
    | |- context [mjoin (?g <$> c :: content)] =>
        change (mjoin (g <$> c :: content)) with (g c ++ mjoin (g <$> content))
    end.
    cbv beta.
    rewrite !filter_app, !length_app, not_elem_of_app, IH2, IH3, H2, H3.
    rewrite (filter_cons (λ c, c = LF)).
    split_and!; [done|by case_decide..].
Qed.

Lemma parseLine_last_wins_witness :
  ∃ metadata',
    forEach parseLine ∅ ([str "title: First"] ++ str "title: Second" :: [str "date: 2024-01-01"])
    = Normal metadata'
    ∧ metadata' !! str "title" = Some (JStr (str "Second")).
Proof.
  apply (parseLine_last_wins [str "title: First"] [str "date: 2024-01-01"]
           (str "title: Second") (str "title") (JStr (str "Second")) ∅).
  - reflexivity.
  - discriminate.
  - intros l v [->|[]%elem_of_nil]%elem_of_cons. discriminate.
Defined.

Lemma parseLine_keys_witness :
  is_Some (<[str "title" := JStr (str "T")]> (∅ : gmap jsstring json) !! str "title") ↔
  is_Some ((∅ : gmap jsstring json) !! str "title")
  ∨ (str "title" ≠ str "__proto__"
     ∧ ∃ line value, line ∈ [str "__proto__: x"; str "title: T"; str "no colon"]
                     ∧ line_entry line = Some (str "title", value)).
Proof.
  apply (parseLine_keys [str "__proto__: x"; str "title: T"; str "no colon"] ∅).
  reflexivity.
Defined.

Lemma parseFrontMatter_metadata_shape_witness :
  str "tags" ≠ str "__proto__" ∧ (COLON ∉ str "tags") ∧ trim (str "tags") = str "tags"
  ∧ ((∃ s, JArr [JNum (str "1"); JNum (str "2")] = JStr s)
     ∨ (str "tags" = str "tags" ∧ ∃ items, JArr [JNum (str "1"); JNum (str "2")] = JArr items)).
Proof.
  apply (parseFrontMatter_metadata_shape
           (str "---" ++ [LF] ++ str " tags : [1, 2]" ++ [LF] ++ str "---" ++ [LF])
           (str "tags")
           {| metadata := {[ str "tags" := JArr [JNum (str "1"); JNum (str "2")] ]};
              content := [] |}).
  - reflexivity.
  - reflexivity.
Defined.

Lemma parseFrontMatter_first_fence_witness :
  ∃ metadata,
    parseFrontMatter (OPENING ++ str "a: 1" ++ CLOSING ++ (str "text" ++ CLOSING ++ str "more"))
    = Normal {| metadata := metadata; content := str "text" ++ CLOSING ++ str "more" |}
    ∧ forEach parseLine ∅ (split (str "a: 1") LF) = Normal metadata.
Proof.
  apply (parseFrontMatter_first_fence (str "a: 1") (str "text" ++ CLOSING ++ str "more")).
  intros k Hk. do 4 (destruct k as [|k]; [reflexivity|]). simpl in Hk. lia.
Defined.

Lemma parse_tags_fallback_witness :
  ∃ tags : list jsstring,
    parse_tags (str "[web, 'js',]") = Normal (JArr (JStr <$> tags))
    ∧ length tags = S (length (filter (λ c, c = COMMA) (slice (str "[web, 'js',]") 1 (-1))))
    ∧ Forall (λ tag, COMMA ∉ tag) tags.
Proof. apply (parse_tags_fallback (str "[web, 'js',]") SyntaxError). reflexivity. Defined.

End PostLoaderMore.

(** ** More on the post index *)

Module AppMore.
Import Js App JsFacts AppFacts.

(** *** The tags *)

Lemma tags_of_elem_of (posts : list Post) (tag : jsstring) :
  tag ∈ tags_of posts ↔ ∃ post, post ∈ posts ∧ brings post tag.
Proof.
  unfold tags_of, sort. rewrite merge_sort_Permutation.
  rewrite foldl_add_post_tags_elem_of, elem_of_nil. split; [|auto].
  by intros [[]|?].
Qed.

Lemma tags_of_NoDup (posts : list Post) : NoDup (tags_of posts).
Proof.
  unfold tags_of, sort. rewrite merge_sort_Permutation.
  apply foldl_add_post_tags_NoDup, NoDup_nil_2.
Qed.

(** X8. The tags stored depend on which tags the posts bring, not on the
    order of the posts nor on how often a tag comes. *)
Theorem tags_of_same_tags (posts posts' : list Post) :
  (∀ tag, (∃ post, post ∈ posts ∧ brings post tag)
          ↔ (∃ post, post ∈ posts' ∧ brings post tag)) →
  tags_of posts = tags_of posts'.
Proof.
  intros Hsame. apply sort_determined.
  - trans (tags_of posts'); [|apply (merge_sort_Permutation sort_le)].
    apply NoDup_Permutation; [apply tags_of_NoDup..|].
    intros tag. by rewrite !tags_of_elem_of.
  - apply Sorted_merge_sort, _.
Qed.

Lemma tags_of_same_tags_witness :
  tags_of (reverse Sample.posts ++ Sample.posts) = tags_of Sample.posts.
Proof.
  apply tags_of_same_tags. intros tag.
  split; intros (post & Hin & Hb); exists post; (split; [|done]).
  - rewrite elem_of_app, elem_of_reverse in Hin. by destruct Hin.
  - rewrite elem_of_app. by right.
Defined.

(** *** The filter *)

Lemma filter_sublist_mono {A} (P : A → Prop) `{!∀ x, Decision (P x)} (l1 l2 : list A) :
  l1 `sublist_of` l2 → filter P l1 `sublist_of` filter P l2.
Proof.
  induction 1 as [|x l1 l2 _ IH|x l1 l2 _ IH]; [done| |].
  - rewrite !filter_cons. case_decide; [by constructor|done].
  - rewrite (filter_cons _ x l2). case_decide; [by constructor|done].
Qed.

Section More.

Variable toLowerCase : jsstring → jsstring.

(** X9. Each step of the filter only takes posts away: what passes with a
    tag and a query also passes with the tag alone, and with the query
    alone. *)
Theorem filterPosts_narrows (st : state) (posts : list Post) (searchQuery : jsstring) :
  allPosts st = PostArray posts →
  ∃ both tagged queried,
    filterPosts toLowerCase searchQuery st = (Normal (PostArray both), st)
    ∧ filterPosts toLowerCase [] st = (Normal (PostArray tagged), st)
    ∧ (filterPosts toLowerCase searchQuery (set_activeTag None st)).1
      = Normal (PostArray queried)
    ∧ both `sublist_of` tagged
    ∧ both `sublist_of` queried
    ∧ tagged `sublist_of` posts
    ∧ queried `sublist_of` posts.
Proof.
  intros Hst. do 3 eexists.
  rewrite !(filterPosts_array toLowerCase st posts) by done.
  rewrite (filterPosts_array toLowerCase (set_activeTag None st) posts) by done.
  split_and!; [done..| | | |]; cbv zeta; simpl activeTag;
    change (truthy (Some [])) with false; cbv iota.
  - destruct (truthy (Some searchQuery)); [apply sublist_filter|done].
  - destruct (truthy (Some searchQuery)); [apply filter_sublist_mono|];
      destruct (activeTag st) as [tag|]; try done;
      destruct (truthy (Some tag)); try done; apply sublist_filter.
  - destruct (activeTag st) as [tag|]; try done;
      destruct (truthy (Some tag)); try done; apply sublist_filter.
  - destruct (truthy (Some searchQuery)); [apply sublist_filter|done].
Qed.

(** *** What a call from the search box leaves *)

(** X10. A call from the search box on a loaded page keeps the active tag
    and shows the mark for "no posts" exactly when no post passes the
    active tag and the query together.  The posts that pass are listed if
    their file names can be encoded; if one cannot, the call throws a
    [URIError] and the list stays what it was. *)
Theorem updateSearchResults_page (st : state) (posts : list Post) (query : jsstring) :
  allPosts st = PostArray posts →
  ∃ visible,
    filterPosts toLowerCase query st = (Normal (PostArray visible), st)
    ∧ let call := updateSearchResults toLowerCase query st in
      let after := call.2 in
      activeTag after = activeTag st
      ∧ (noPostsEl after = DisplayBlock ↔ visible = [])
      ∧ (noPostsEl after = DisplayNone ↔ visible ≠ [])
      ∧ (encodable visible → call.1 = Normal () ∧ postsList after = visible)
      ∧ (¬ encodable visible →
         call.1 = Throws URIError ∧ postsList after = postsList st).
Proof.
  intros Hst.
  pose proof (filterPosts_array toLowerCase st posts query Hst) as Hfilter.
  match type of Hfilter with
  | _ = (Normal (PostArray ?v), _) => set (visible := v) in Hfilter
  end.
  clearbody visible. exists visible. split; [done|].
  unfold updateSearchResults. cbv [mbind M_bind].
  rewrite Hfilter, renderPosts_array.
  destruct visible as [|post visible].
  { simpl. split_and!; try done. intros []. constructor. }
  destruct (decide (encodable (post :: visible))); simpl; split_and!; done.
Qed.

(** X11. After a load that stored a value that is not an array, a call from
    the search box with a non-empty query throws a [TypeError], and the
    page stays as it is. *)
Theorem updateSearchResults_after_failed_load
    (st : state) (v : non_array) (query : jsstring) :
  allPosts st = NotAnArray v →
  query ≠ [] →
  updateSearchResults toLowerCase query st = (Throws TypeError, st).
Proof.
  intros Hst Hq. unfold updateSearchResults, filterPosts.
  cbv [mbind M_bind mret M_ret get]. rewrite Hst.
  destruct query as [|c q]; [done|].
  by destruct (activeTag st) as [[|d t]|].
Qed.

(** *** The page under clicks and searches *)

Lemma handleTagClick_fields (st : state) (posts : list Post) (selectedTag : jsstring) :
  allPosts st = PostArray posts →
  postsList st `sublist_of` posts →
  ∃ o st', handleTagClick toLowerCase selectedTag st = (o, st')
         ∧ activeTag st' = select_tag (activeTag st) selectedTag
         ∧ allPosts st' = allPosts st ∧ allTags st' = allTags st
         ∧ postsList st' `sublist_of` posts.
Proof.
  intros Hst Hsub.
  destruct (handleTagClick_run toLowerCase st posts selectedTag Hst)
    as (o & st' & -> & Htag & Hposts & Htags & _ & _ & Hok & Hthrow).
  exists o, st'. split_and!; [done|done|by rewrite Hposts|done|].
  match type of Hok with
  | encodable ?v → _ =>
      destruct (decide (encodable v)) as [He|He];
        [destruct (Hok He) as [_ ->]|destruct (Hthrow He) as [_ ->]; done]
  end.
  destruct (select_tag (activeTag st) selectedTag); [apply sublist_filter|done].
Qed.

Lemma updateSearchResults_fields (st : state) (posts : list Post) (query : jsstring) :
  allPosts st = PostArray posts →
  postsList st `sublist_of` posts →
  ∃ o st', updateSearchResults toLowerCase query st = (o, st')
         ∧ activeTag st' = activeTag st
         ∧ allPosts st' = allPosts st ∧ allTags st' = allTags st
         ∧ postsList st' `sublist_of` posts.
Proof.
  intros Hst Hsub.
  pose proof (filterPosts_array toLowerCase st posts query Hst) as Hfilter.
  match type of Hfilter with
  | _ = (Normal (PostArray ?v), _) =>
      assert (v `sublist_of` posts) as Hv
        by (cbv zeta; destruct (truthy (Some query));
            [etrans; [apply sublist_filter|]|];
            (destruct (activeTag st) as [tag|]; [|done];
             destruct (truthy (Some tag)); [apply sublist_filter|done]));
      set (visible := v) in Hfilter, Hv
  end.
  clearbody visible. unfold updateSearchResults. cbv [mbind M_bind].
  rewrite Hfilter, renderPosts_array.
  destruct visible as [|post visible].
  { eexists _, _. split; [reflexivity|]. simpl. split_and!; done. }
  destruct (decide (encodable (post :: visible))); eexists _, _;
    (split; [reflexivity|]); simpl; split_and!; done.
Qed.

(** X12. Whatever buttons are clicked and whatever is searched on a loaded
    page, the post array and the tags stay what the load made them, the
    active tag is never the empty string, and the posts listed are a
    subsequence of the post array. *)
Theorem run_keeps_catalog (evs : list event) (st : state) (posts : list Post) :
  allPosts st = PostArray posts →
  activeTag st ≠ Some [] →
  postsList st `sublist_of` posts →
  let after := run toLowerCase evs st in
  allPosts after = PostArray posts
  ∧ allTags after = allTags st
  ∧ activeTag after ≠ Some []
  ∧ postsList after `sublist_of` posts.
Proof.
  revert st. induction evs as [|ev evs IH]; intros st Hst Hactive Hsub; [done|].
  cbv zeta. unfold run. simpl. fold (run toLowerCase evs (step toLowerCase st ev)).
  assert (allPosts (step toLowerCase st ev) = PostArray posts
          ∧ allTags (step toLowerCase st ev) = allTags st
          ∧ activeTag (step toLowerCase st ev) ≠ Some []
          ∧ postsList (step toLowerCase st ev) `sublist_of` posts)
    as (H1 & H2 & H3 & H4).
  { destruct ev as [selectedTag|query]; unfold step, exec.
    - destruct (handleTagClick_fields st posts selectedTag Hst Hsub)
        as (o & st' & -> & Htag & Hposts & Htags & Hlist).
      cbn [snd]. split_and!; [by rewrite Hposts|done| |done].
      rewrite Htag. intros E. by apply select_tag_truthy in E.
    - destruct (updateSearchResults_fields st posts query Hst Hsub)
        as (o & st' & -> & Htag & Hposts & Htags & Hlist).
      cbn [snd]. split_and!; [by rewrite Hposts|done|by rewrite Htag|done]. }
  destruct (IH _ H1 H3 H4) as (? & ? & ? & ?). split_and!; try done. congruence.
Qed.

(** What a load of an array of posts leaves. *)
Lemma loadPosts_fields (st : state) (posts : list Post) :
  let after := exec (loadPosts (Body (PostArray posts))) st in
  allPosts after = PostArray posts
  ∧ allTags after = tags_of posts
  ∧ activeTag after = activeTag st
  ∧ noPostsEl after = (if decide (posts = []) then DisplayBlock else DisplayNone)
  ∧ tagsContainer after =
    (if decide (tags_of posts = []) then tagsContainer st
     else tag_bar (activeTag st) (tags_of posts))
  ∧ tagsContainer_display after =
    (if decide (tags_of posts = []) then DisplayNone else tagsContainer_display st)
  ∧ (if decide (encodable posts)
     then postsList after = posts
          ∧ loadingEl_display after = DisplayNone
          ∧ loadingEl_failure after = loadingEl_failure st
     else postsList after = postsList st
          ∧ loadingEl_display after = loadingEl_display st
          ∧ loadingEl_failure after = true).
Proof.
  cbv zeta. unfold exec. rewrite loadPosts_array. unfold exec.
  destruct (renderTags_fields
              (set_allTags (tags_of posts) (set_allPosts (PostArray posts) st)))
    as (st2 & -> & Hbar & Hdisplay & Hposts & Htags & Hactive & Hlist & Hnone
        & Hfail & Hload).
  cbn [allPosts allTags activeTag postsList noPostsEl tagsContainer
       tagsContainer_display loadingEl_failure loadingEl_display
       set_allPosts set_allTags] in *.
  destruct posts as [|post posts].
  { rewrite decide_True by constructor. cbn. by rewrite decide_True. }
  destruct (decide (encodable (post :: posts))); cbn; by rewrite decide_False.
Qed.

(** X14. After the load of an array of posts, the mark for "no posts" is
    shown exactly when the array is empty, also when a file name cannot be
    encoded and the list is not written; the tag bar is hidden when no post
    brings a tag, and otherwise holds the button that clears the tag
    followed by one button for each tag, in the order of the tags, each
    with the escaped tag as its [data-tag] and as its label. *)
Theorem loadPosts_page (st : state) (posts : list Post) :
  let after := exec (loadPosts (Body (PostArray posts))) st in
  (noPostsEl after = DisplayBlock ↔ posts = [])
  ∧ (noPostsEl after = DisplayNone ↔ posts ≠ [])
  ∧ (tags_of posts = [] →
     tagsContainer_display after = DisplayNone
     ∧ tagsContainer after = tagsContainer st)
  ∧ (tags_of posts ≠ [] →
     tagsContainer after
     = button_html (negb (truthy (activeTag st))) [] ALL
       ++ mjoin ((λ tag, button_html (bool_decide (activeTag st = Some tag))
                           (escapeHTML tag) (escapeHTML tag)) <$> tags_of posts)
     ∧ tagsContainer_display after = tagsContainer_display st).
Proof.
  destruct (loadPosts_fields st posts) as (_ & _ & _ & Hnone & Hbar & Hdisplay & _).
  cbv zeta. rewrite Hnone, Hbar, Hdisplay. clear Hnone Hbar Hdisplay. split_and!.
  - destruct (decide (posts = [])); intuition congruence.
  - destruct (decide (posts = [])); intuition congruence.
  - intros E. by rewrite !decide_True.
  - intros E. by rewrite !decide_False.
Qed.

End More.

Lemma loadPosts_page_witness :
  tagsContainer (exec (loadPosts (Body (PostArray Sample.posts))) initial)
  = button_html (negb (truthy (activeTag initial))) [] ALL
    ++ mjoin ((λ tag, button_html (bool_decide (activeTag initial = Some tag))
                        (escapeHTML tag) (escapeHTML tag)) <$> tags_of Sample.posts)
  ∧ tagsContainer_display (exec (loadPosts (Body (PostArray Sample.posts))) initial)
    = tagsContainer_display initial.
Proof.
  apply (proj2 (proj2 (proj2 (loadPosts_page initial Sample.posts)))).
  discriminate.
Defined.

Lemma run_keeps_catalog_witness :
  let after := run lower_latin
                 [TagClick (str "js"); SearchResults (str "css"); TagClick (str "nope")]
                 Sample.loaded in
  allPosts after = PostArray Sample.posts
  ∧ allTags after = allTags Sample.loaded
  ∧ activeTag after ≠ Some []
  ∧ postsList after `sublist_of` Sample.posts.
Proof.
  apply (run_keeps_catalog lower_latin
           [TagClick (str "js"); SearchResults (str "css"); TagClick (str "nope")]
           Sample.loaded Sample.posts).
  - reflexivity.
  - discriminate.
  - reflexivity.
Defined.

Lemma filterPosts_narrows_witness :
  ∃ both tagged queried,
    filterPosts lower_latin (str "style") (set_activeTag (Some (str "js")) Sample.loaded)
    = (Normal (PostArray both), set_activeTag (Some (str "js")) Sample.loaded)
    ∧ filterPosts lower_latin [] (set_activeTag (Some (str "js")) Sample.loaded)
      = (Normal (PostArray tagged), set_activeTag (Some (str "js")) Sample.loaded)
    ∧ (filterPosts lower_latin (str "style")
         (set_activeTag None (set_activeTag (Some (str "js")) Sample.loaded))).1
      = Normal (PostArray queried)
    ∧ both `sublist_of` tagged
    ∧ both `sublist_of` queried
    ∧ tagged `sublist_of` Sample.posts
    ∧ queried `sublist_of` Sample.posts.
Proof.
  apply (filterPosts_narrows lower_latin
           (set_activeTag (Some (str "js")) Sample.loaded) Sample.posts (str "style")).
  reflexivity.
Defined.

Lemma updateSearchResults_page_witness :
  ∃ visible,
    filterPosts lower_latin (str "nothing like this") Sample.loaded
    = (Normal (PostArray visible), Sample.loaded)
    ∧ let call := updateSearchResults lower_latin (str "nothing like this")
                    Sample.loaded in
      let after := call.2 in
      activeTag after = activeTag Sample.loaded
      ∧ (noPostsEl after = DisplayBlock ↔ visible = [])
      ∧ (noPostsEl after = DisplayNone ↔ visible ≠ [])
      ∧ (encodable visible → call.1 = Normal () ∧ postsList after = visible)
      ∧ (¬ encodable visible →
         call.1 = Throws URIError ∧ postsList after = postsList Sample.loaded).
Proof.
  apply (updateSearchResults_page lower_latin Sample.loaded Sample.posts).
  reflexivity.
Defined.

Lemma updateSearchResults_after_failed_load_witness :
  updateSearchResults lower_latin (str "a")
    (exec (loadPosts (Body (NotAnArray OtherValue))) initial)
  = (Throws TypeError, exec (loadPosts (Body (NotAnArray OtherValue))) initial).
Proof.
  apply (updateSearchResults_after_failed_load lower_latin _ OtherValue);
    [reflexivity|discriminate].
Defined.

End AppMore.

(** *** [escapeHTML] *)

Module EscapeMore.
Import Js App.

Lemma escapeHTML_cons (c : N) (s : jsstring) :
  escapeHTML (c :: s) =
  (if (c =? 38)%N then str "&amp;"
   else if (c =? 60)%N then str "&lt;"
   else if (c =? 62)%N then str "&gt;"
   else if (c =? 160)%N then str "&nbsp;"
   else [c]) ++ escapeHTML s.
Proof. done. Qed.

(** X15. What [escapeHTML] returns holds no [<] and no [>]; it leaves the
    double quotes of the text as they are, as many as there were. *)
Theorem escapeHTML_markup (s : jsstring) :
  (60%N ∉ escapeHTML s) ∧ (62%N ∉ escapeHTML s)
  ∧ length (filter (λ c, c = DQUOTE) (escapeHTML s))
    = length (filter (λ c, c = DQUOTE) s).
Proof.
  induction s as [|c s (IH1 & IH2 & IH3)].
  - split_and!; [apply not_elem_of_nil..|done].
  - rewrite escapeHTML_cons, !not_elem_of_app, filter_app, length_app, IH3.
    destruct (c =? 38)%N eqn:E1.
    { apply N.eqb_eq in E1 as ->. split_and!; try done;
        rewrite list_elem_of_In; by intros [?|[?|[?|[?|[?|[]]]]]]. }
    destruct (c =? 60)%N eqn:E2.
    { apply N.eqb_eq in E2 as ->. split_and!; try done;
        rewrite list_elem_of_In; by intros [?|[?|[?|[?|[]]]]]. }
    destruct (c =? 62)%N eqn:E3.
    { apply N.eqb_eq in E3 as ->. split_and!; try done;
        rewrite list_elem_of_In; by intros [?|[?|[?|[?|[]]]]]. }
    destruct (c =? 160)%N eqn:E4.
    { apply N.eqb_eq in E4 as ->. split_and!; try done;
        rewrite list_elem_of_In; by intros [?|[?|[?|[?|[?|[?|[]]]]]]]. }
    apply N.eqb_neq in E1, E2, E3, E4.
    split_and!; try done.
    + apply not_elem_of_cons. split; [congruence|apply not_elem_of_nil].
    + apply not_elem_of_cons. split; [congruence|apply not_elem_of_nil].
    + rewrite (filter_cons _ c s), (filter_cons _ c []), filter_nil.
      by destruct (decide (c = DQUOTE)).
Qed.

(** X16. [escapeHTML] loses nothing: two texts with the same markup are the
    same text. *)
Theorem escapeHTML_inj (s t : jsstring) :
  escapeHTML s = escapeHTML t → s = t.
Proof.
  revert t. induction s as [|c s IH]; intros [|d t].
  - done.
  - rewrite escapeHTML_cons. intros H. exfalso.
    by repeat case_match.
  - rewrite escapeHTML_cons. intros H. exfalso.
    by repeat case_match.
  - rewrite !escapeHTML_cons. intros H.
    destruct (decide (c = d)) as [->|Hne].
    + f_equal. apply IH. by apply app_inv_head in H.
    + exfalso.
      destruct (c =? 38)%N eqn:C1; destruct (d =? 38)%N eqn:D1;
      destruct (c =? 60)%N eqn:C2; destruct (d =? 60)%N eqn:D2;
      destruct (c =? 62)%N eqn:C3; destruct (d =? 62)%N eqn:D3;
      destruct (c =? 160)%N eqn:C4; destruct (d =? 160)%N eqn:D4;
      rewrite ?N.eqb_eq, ?N.eqb_neq in *; simplify_eq/=; congruence.
Qed.

Lemma escapeHTML_inj_witness : str "a < b & c" = str "a < b & c".
Proof. exact (escapeHTML_inj (str "a < b & c") (str "a < b & c") eq_refl). Defined.

End EscapeMore.

(** ** More on the search box *)

Module SearchBoxMore.
Import Js SearchBox SearchBoxFacts.

Lemma advance_one_pending (now : N) (st : state) :
  one_pending st →
  one_pending (advance now st) ∧ searchInput_value (advance now st) = searchInput_value st.
Proof.
  destruct st as [active pending next text loaded made].
  intros [E|(t & E & Hid)]; simpl in *; subst; unfold advance; simpl.
  - split; [by left|done].
  - destruct t as [id due query]. simpl.
    destruct (due <=? now)%N.
    + unfold call_updateSearchResults. simpl. rewrite filter_own_timer.
      destruct loaded; (split; [by left|done]).
    + split; [right; eauto|done].
Qed.

(** X17. Whatever is typed and whatever keys are pressed, at most one timeout
    of the search box is pending, and it is the one [searchTimeout] names:
    every input cancels the timeout of the one before. *)
Theorem run_one_pending (trace : list (N * event)) (st : state) :
  one_pending st →
  one_pending (run trace st) ∧ length (timers (run trace st)) ≤ 1.
Proof.
  assert (∀ st', one_pending st' → length (timers st') ≤ 1) as Hlen.
  { intros st' [->|(t & -> & _)]; simpl; lia. }
  revert st. induction trace as [|[now ev] trace IH]; intros st Hst; simpl.
  - split; [done|by apply Hlen].
  - apply IH. unfold dispatch.
    destruct (advance_one_pending now st Hst) as [Hadv _].
    destruct (advance now st) as [active pending next text loaded made].
    destruct ev as [value| |]; [| |done].
    + unfold handleSearch, setTimeout, clearTimeout. simpl.
      destruct Hadv as [E|(t & E & Hid)]; simpl in *; subst.
      * right. destruct active; simpl; eauto.
      * right. destruct t as [id due query]. simpl.
        rewrite filter_own_timer. simpl. eauto.
    + unfold handleEscape, call_updateSearchResults. simpl.
      by destruct loaded.
Qed.

(** X18. The Escape key empties the input and calls for the unfiltered list
    at once, but it does not cancel a pending timeout: the search that was
    waiting still runs when its delay ends. *)
Theorem escape_keeps_timeout (st : state) (due now : N) (query : jsstring) :
  waiting st (Some (due, query)) →
  (now < due)%N →
  let st' := dispatch now EscapeKey st in
  searchInput_value st' = []
  ∧ calls st' = calls st ++ [(now, [])]
  ∧ calls (advance due st') = calls st ++ [(now, []); (due, query)].
Proof.
  intros [Hloaded (id & Htimers & Hid)] Hnow.
  destruct st as [active pending next text loaded made]. simpl in *. subst.
  unfold dispatch, advance. simpl.
  apply N.leb_gt in Hnow. rewrite Hnow.
  unfold handleEscape, call_updateSearchResults. simpl.
  rewrite N.leb_refl. simpl. by rewrite <-app_assoc.
Qed.

Lemma run_one_pending_witness :
  one_pending (run [(0%N, InputEvent (str "a")); (10%N, EscapeKey);
                    (20%N, InputEvent (str "ab")); (400%N, OtherKey)] initial)
  ∧ length (timers (run [(0%N, InputEvent (str "a")); (10%N, EscapeKey);
                         (20%N, InputEvent (str "ab")); (400%N, OtherKey)] initial)) ≤ 1.
Proof. apply run_one_pending. by left. Defined.

Lemma escape_keeps_timeout_witness :
  let st := dispatch 0 (InputEvent (str "old")) initial in
  let st' := dispatch 100 EscapeKey st in
  searchInput_value st' = []
  ∧ calls st' = calls st ++ [(100%N, [])]
  ∧ calls (advance 300 st') = calls st ++ [(100%N, []); (300%N, str "old")].
Proof.
  apply (escape_keeps_timeout (dispatch 0 (InputEvent (str "old")) initial) 300 100
           (str "old")).
  - split; [reflexivity|]. by exists 1%positive.
  - reflexivity.
Defined.

End SearchBoxMore.

(** ** More on the theme switch *)

Module ThemeMore.
Import Js Theme ThemeFacts.

(** X19. A theme stored under the key, when it is not the empty string, is
    the one set at start, whatever the system reports; an empty string
    stored counts as nothing stored.  Nothing is written to the storage. *)
Theorem initTheme_stored (st : state) (saved : jsstring) (prefersDark : bool) :
  localStorage st !! THEME_KEY = Some saved →
  data_theme (initTheme prefersDark st)
  = Some (if decide (saved = []) then (if prefersDark then DARK_THEME else LIGHT_THEME)
          else saved)
  ∧ localStorage (initTheme prefersDark st) = localStorage st.
Proof.
  intros Hsaved. unfold initTheme. rewrite Hsaved.
  destruct saved as [|c saved]; simpl truthy; cbv iota.
  - rewrite decide_True by done. apply setTheme_fields.
  - rewrite decide_False by done. apply setTheme_fields.
Qed.

(** X20. A toggle sets dark or light, never another theme: light when the
    theme was dark, dark in every other case; it stores what it sets; and
    two toggles in a row bring back the theme [getCurrentTheme] reported. *)
Theorem toggleTheme_flips (st : state) :
  let toggled := toggleTheme st in
  data_theme toggled
  = Some (if bool_decide (getCurrentTheme st = DARK_THEME) then LIGHT_THEME else DARK_THEME)
  ∧ localStorage toggled !! THEME_KEY = data_theme toggled
  ∧ getCurrentTheme toggled ≠ getCurrentTheme st
  ∧ getCurrentTheme (toggleTheme toggled) = getCurrentTheme st.
Proof.
  cbv zeta.
  assert (∀ st', getCurrentTheme (toggleTheme st')
                 = if bool_decide (getCurrentTheme st' = DARK_THEME)
                   then LIGHT_THEME else DARK_THEME) as Hflip.
  { intros st'. unfold getCurrentTheme at 1.
    rewrite (proj1 (toggleTheme_fields st')).
    unfold getCurrentTheme, DARK_THEME, LIGHT_THEME.
    by destruct (bool_decide (data_theme st' = Some (str "dark"))). }
  destruct (toggleTheme_fields st) as [Htheme Hstored].
  rewrite Hstored, Htheme, !Hflip.
  unfold getCurrentTheme, DARK_THEME, LIGHT_THEME.
  by destruct (bool_decide (data_theme st = Some (str "dark"))).
Qed.

Lemma run_flags (evs : list event) (st : state) :
  giscus_hook (run evs st) = giscus_hook st
  ∧ giscus_frame (run evs st) = giscus_frame st.
Proof.
  revert st. unfold run. induction evs as [|ev evs IH]; intros st; [done|].
  simpl. destruct (IH (step st ev)) as [-> ->].
  destruct ev as [|matches]; simpl;
    unfold toggleTheme, systemChange, setTheme, updateGiscusTheme; simpl;
    repeat case_match; done.
Qed.

(** X21. The comment widget is told of every theme set, with "dark" or
    "light": a toggle posts to it the theme it sets.  When the hook of the
    widget is not defined or its frame is not in the page, nothing is ever
    posted. *)
Theorem giscus_follows_theme (st : state) (evs : list event) :
  (giscus_hook st = true → giscus_frame st = true →
   giscus_posted (toggleTheme st)
   = giscus_posted st ++ [getCurrentTheme (toggleTheme st)])
  ∧ (giscus_hook st && giscus_frame st = false →
     giscus_posted (run evs st) = giscus_posted st).
Proof.
  split.
  - intros Hhook Hframe. unfold getCurrentTheme.
    rewrite (proj1 (toggleTheme_fields st)).
    unfold toggleTheme, setTheme, updateGiscusTheme. simpl. rewrite Hhook, Hframe.
    simpl. by destruct (bool_decide (data_theme st = Some DARK_THEME)).
  - revert st. unfold run. induction evs as [|ev evs IH]; intros st Hoff; [done|].
    simpl. rewrite IH.
    + destruct ev as [|matches]; simpl;
        unfold toggleTheme, systemChange, setTheme, updateGiscusTheme; simpl;
        destruct (giscus_hook st), (giscus_frame st); try done;
        repeat case_match; done.
    + destruct (run_flags [ev] st) as [Hh Hf]. unfold run in Hh, Hf. simpl in Hh, Hf.
      by rewrite Hh, Hf.
Qed.

Lemma initTheme_stored_witness :
  data_theme (initTheme false (mkState None {[ THEME_KEY := str "dark" ]} false false []))
  = Some (str "dark")
  ∧ localStorage (initTheme false (mkState None {[ THEME_KEY := str "dark" ]} false false []))
    = {[ THEME_KEY := str "dark" ]}.
Proof.
  exact (initTheme_stored (mkState None {[ THEME_KEY := str "dark" ]} false false [])
           (str "dark") false eq_refl).
Defined.

Lemma giscus_follows_theme_witness :
  giscus_posted (toggleTheme (mkState (Some (str "sepia")) ∅ true true []))
  = [] ++ [getCurrentTheme (toggleTheme (mkState (Some (str "sepia")) ∅ true true []))].
Proof.
  apply (proj1 (giscus_follows_theme (mkState (Some (str "sepia")) ∅ true true []) []));
    reflexivity.
Defined.

End ThemeMore.
